(** * rsocket-go: socket-level dispatch, admission control and URI resolution

    A shallow embedding of [src/rsocket.go] (packages [rsocket], [socket]
    and [transport]) together with the properties of the design document
    that concern it.

    Layout: the embedding comes first, one module per Go package, then the
    lemmas about it. *)

From Stdlib Require Import ZArith Lia Ascii.
From Stdlib Require Import DecimalString DecimalPos DecimalZ.
From stdpp Require Import base tactics option list strings.
From stdpp Require Import gmap.

Local Open Scope Z_scope.

(** ** Go values shared by the packages *)

(** A Go [error] value, by the call that built it: [errors.New(msg)], or
    [fmt.Errorf(format, arg)] with its single [%s]/[%d] argument kept apart
    from the format, or a fault of the Go runtime. *)
Inductive error : Type :=
| errors_New (msg : string)
| fmt_Errorf (format : string) (arg : string)
| runtime_Error (msg : string).

Global Instance error_eq_dec : EqDecision error.
Proof. solve_decision. Defined.

(** ** Package [transport] *)

Module transport.

(** *** The part of [regexp] that [regURI] needs

    Patterns are Go (RE2) syntax trees.  Go strings are byte strings; the
    pattern of this package only distinguishes ASCII bytes ([/], [:] and
    the digits), every byte of a multi-byte rune lies outside those, so
    matching byte by byte agrees with matching rune by rune. *)
Inductive regex : Type :=
| BeginText                     (* ^ *)
| EndText                       (* $ *)
| Lit (l : string)              (* literal text *)
| Set1 (p : ascii -> bool)      (* one character of a class: [...] *)
| SetPlus (p : ascii -> bool)   (* [...]+, greedy *)
| Cat (r1 r2 : regex)           (* r1r2 *)
| Alt (r1 r2 : regex)           (* r1|r2, prefers r1 *)
| Opt (r : regex)               (* r?, greedy: prefers one occurrence *)
| Group (i : nat) (r : regex).  (* (r), capturing group number i *)

(** [strip_prefix l s] is the rest of [s] after its prefix [l]. *)
Fixpoint strip_prefix (l s : string) : option string :=
  match l, s with
  | EmptyString, _ => Some s
  | String a l', String b s' =>
      if Ascii.eqb a b then strip_prefix l' s' else None
  | String _ _, EmptyString => None
  end.

(** The non-empty prefixes of [s] made of characters of the class [p],
    each with the rest of [s], longest first. *)
Fixpoint runs (p : ascii -> bool) (s : string) : list (string * string) :=
  match s with
  | String c s' =>
      if p c
      then ((λ m, (String c m.1, m.2)) <$> runs p s') ++ [(String c "", s')]
      else []
  | EmptyString => []
  end.

(** One way of matching: the text consumed, the text left, and the
    submatches recorded so far (slot [i] for group [i]). *)
Definition thread : Type := string * string * list string.

(** All the ways [r] matches at offset [pos] of the text, where [s] is the
    text from that offset on; in the order a backtracking matcher tries
    them, which is the leftmost-first preference of Go's [regexp]. *)
Fixpoint rmatch (r : regex) (pos : nat) (s : string) (caps : list string)
  : list thread :=
  match r with
  | BeginText => match pos with O => [("", s, caps)] | S _ => [] end
  | EndText => match s with EmptyString => [("", s, caps)] | String _ _ => [] end
  | Lit l =>
      match strip_prefix l s with
      | Some rest => [(l, rest, caps)]
      | None => []
      end
  | Set1 p =>
      match s with
      | String c rest => if p c then [(String c "", rest, caps)] else []
      | EmptyString => []
      end
  | SetPlus p => (λ m, (m.1, m.2, caps)) <$> runs p s
  | Cat r1 r2 =>
      m1 ← rmatch r1 pos s caps;
      m2 ← rmatch r2 (pos + String.length m1.1.1) m1.1.2 m1.2;
      [(m1.1.1 +:+ m2.1.1, m2.1.2, m2.2)]
  | Alt r1 r2 => rmatch r1 pos s caps ++ rmatch r2 pos s caps
  | Opt r => rmatch r pos s caps ++ [("", s, caps)]
  | Group i r => (λ m, (m.1.1, m.1.2, <[i:=m.1.1]> m.2)) <$> rmatch r pos s caps
  end.

(** The leftmost match: the first way of matching at the smallest offset
    that has one. *)
Fixpoint search (r : regex) (pos : nat) (s : string) (caps : list string)
  : option thread :=
  match rmatch r pos s caps with
  | m :: _ => Some m
  | [] =>
      match s with
      | String _ s' => search r (S pos) s' caps
      | EmptyString => None
      end
  end.

(** [Regexp.FindStringSubmatch]: [nil] when there is no match,
    otherwise the matched text followed by the text of each of the
    [ngroups] groups, the empty string for a group that took no part. *)
Definition FindStringSubmatch (r : regex) (ngroups : nat) (s : string)
  : option (list string) :=
  match search r 0 s (replicate (S ngroups) "") with
  | Some m => Some (<[0%nat:=m.1.1]> m.2)
  | None => None
  end.

(** Every character of [s] is in the class [p]. *)
Fixpoint all_in (p : ascii -> bool) (s : string) : bool :=
  match s with
  | EmptyString => true
  | String c s' => p c && all_in p s'
  end.

Definition not_colon (c : ascii) : bool := negb (Ascii.eqb c ":").

(** Character classes of [regURI]. *)
Definition not_slash_colon (c : ascii) : bool :=
  negb (Ascii.eqb c "/" || Ascii.eqb c ":").
Definition in_range (lo hi c : ascii) : bool :=
  (N_of_ascii lo <=? N_of_ascii c)%N && (N_of_ascii c <=? N_of_ascii hi)%N.
Definition digit_1_9 : ascii -> bool := in_range "1" "9".
Definition digit_0_9 : ascii -> bool := in_range "0" "9".

(** [regURI = regexp.MustCompile("^(tcp://|ws://)?([^/:]+):([1-9][0-9]+)$")] *)
Definition regURI : regex :=
  Cat BeginText
   (Cat (Opt (Group 1 (Alt (Lit "tcp://") (Lit "ws://"))))
    (Cat (Group 2 (SetPlus not_slash_colon))
     (Cat (Lit ":")
      (Cat (Group 3 (Cat (Set1 digit_1_9) (SetPlus digit_0_9)))
       EndText)))).

(** The texts of the shape [[scheme]host:port] that [regURI] describes,
    with their three parts. *)
Definition uri_shape (s g1 g2 g3 : string) : Prop :=
  s = g1 +:+ g2 +:+ ":" +:+ g3 ∧
  (g1 = "tcp://" ∨ g1 = "ws://" ∨ g1 = "") ∧
  g2 ≠ "" ∧ all_in not_slash_colon g2 = true ∧
  ∃ d ds, g3 = String d ds ∧ digit_1_9 d = true ∧
          ds ≠ "" ∧ all_in digit_0_9 ds = true.

(** [type protocol int8] with [protoTCP = 1], [protoWebsocket = 2]
    ([iota] starts at the blank identifier). *)
Definition protocol : Type := Z.
Definition protoTCP : protocol := 1.
Definition protoWebsocket : protocol := 2.

Record URI : Type := mkURI { proto : protocol; host : string; port : Z }.

Global Instance URI_eq_dec : EqDecision URI.
Proof. solve_decision. Defined.

(** *** The part of [strconv] that [ParseURI] needs *)

Definition maxInt : Z := 2 ^ 63 - 1.

Definition digit_value (c : ascii) : option Z :=
  if digit_0_9 c then Some (Z.of_N (N_of_ascii c) - 48) else None.

(** The value of a run of decimal digits, most significant first. *)
Fixpoint decimal (acc : Z) (s : string) : option Z :=
  match s with
  | EmptyString => Some acc
  | String c s' =>
      match digit_value c with
      | Some d => decimal (10 * acc + d) s'
      | None => None
      end
  end.

(** [strconv.Atoi] on unsigned input, for a 64-bit [int]: the value and
    whether an error came with it.  Text that is not a run of digits
    gives 0 with a syntax error, a value out of range gives the largest
    [int] with a range error.  ([ParseURI] drops the error.) *)
Definition Atoi (s : string) : Z * bool :=
  match s with
  | EmptyString => (0, true)
  | _ =>
      match decimal 0 s with
      | Some v => if v <=? maxInt then (v, false) else (maxInt, true)
      | None => (0, true)
      end
  end.

(** [ParseURI]: the returned pair of a URI pointer and an error, as a sum. *)
Definition ParseURI (uri : string) : URI + error :=
  match FindStringSubmatch regURI 3 uri with
  | None => inr (fmt_Errorf "rsocket: invalid URI %s" uri)
  | Some mat =>
      let proto := mat !!! 1%nat in
      let host := mat !!! 2%nat in
      let port := (Atoi (mat !!! 3%nat)).1 in
      if decide (proto = "tcp://" ∨ proto = "") then
        inl {| proto := protoTCP; host := host; port := port |}
      else if decide (proto = "ws://") then
        inl {| proto := protoWebsocket; host := host; port := port |}
      else
        inr (fmt_Errorf "rsocket: unsupported protocol %s" proto)
  end.

(** *** Printing *)

(** The verb [%d] of [fmt] on an integer: its decimal digits, with a minus
    sign when it is negative. *)
Definition format_int (z : Z) : string := NilZero.string_of_int (Z.to_int z).

(** [protoMap] *)
Definition protoMap : gmap Z string :=
  <[protoTCP := "tcp"]> (<[protoWebsocket := "ws"]> ∅).

(** [protocol.String]: the name, or the value it panics with. *)
Definition protocol_String (s : protocol) : string + error :=
  match protoMap !! s with
  | Some found => inl found
  | None =>
      inr (fmt_Errorf "rsocket: unknown transport protocol %d" (format_int s))
  end.

Section Transports.

(** The constructors of the transports and the default websocket path are
    not among the sources; so is what [fmt] prints for a value whose
    [String] method panics. *)
Context {Transport ServerTransport : Type}.
Variable newTCPClientTransport : string -> Transport + error.
Variable newWebsocketClientTransport : string -> Transport + error.
Variable newTCPServerTransport : string -> ServerTransport.
Variable newWebsocketServerTransport : string -> string -> ServerTransport.
Variable defaultWebsocketPath : string.
Variable fmt_panicked : error -> string.

(** The verb [%s] of [fmt] on a [protocol], which has a [String] method. *)
Definition fmt_s (s : protocol) : string :=
  match protocol_String s with
  | inl name => name
  | inr v => fmt_panicked v
  end.

(** [URI.String] *)
Definition URI_String (p : URI) : string :=
  "URI{protocol=" +:+ fmt_s (proto p) +:+ ", host=" +:+ host p
    +:+ ", port=" +:+ format_int (port p) +:+ "}".

(** [URI.MakeClientTransport] *)
Definition MakeClientTransport (p : URI) : Transport + error :=
  if decide (proto p = protoTCP) then
    newTCPClientTransport (host p +:+ ":" +:+ format_int (port p))
  else if decide (proto p = protoWebsocket) then
    let url := fmt_s (proto p) +:+ "://" +:+ host p +:+ ":"
                 +:+ format_int (port p) +:+ "/" in
    newWebsocketClientTransport url
  else
    inr (fmt_Errorf "rsocket: cannot create client transport" "").

(** [URI.MakeServerTransport]: the pair [(tp, err)] as a sum. *)
Definition MakeServerTransport (p : URI) : ServerTransport + error :=
  let addr := host p +:+ ":" +:+ format_int (port p) in
  if decide (proto p = protoTCP) then
    inl (newTCPServerTransport addr)
  else if decide (proto p = protoWebsocket) then
    inl (newWebsocketServerTransport addr defaultWebsocketPath)
  else
    inr (fmt_Errorf "rsocket: unsupported proto %s" (fmt_s (proto p))).

End Transports.

End transport.

(** ** Package [socket] *)

Module socket.

(** *** Collaborators that the package consumes through their interface *)

(** [payload.Payload]: data bytes with optional metadata bytes. *)
Record Payload : Type := mkPayload { Data : string; Metadata : option string }.

(** [rx.Publisher]: the payloads a channel request sends. *)
Definition Publisher : Type := list Payload.

(** [mono.Mono]: an eventual single value; [mono_Error e] is [mono.Error(e)],
    the instance that has already failed with [e]. *)
Inductive Mono : Type :=
| mono_Error (e : error)
| mono_Just (v : Payload).

(** [flux.Flux]: a sequence of values; [flux_Error e] is [flux.Error(e)]. *)
Inductive Flux : Type :=
| flux_Error (e : error)
| flux_Just (vs : list Payload).

Inductive level : Type := WARN | ERROR.

(** What a run of this layer does to the world around it, in order: lines
    handed to the [logger], calls that reach the duplex socket (and so the
    remote peer), and calls of close handlers. *)
Inductive event : Type :=
| Logged (lvl : level) (format : string) (arg : error)
| DuplexFireAndForget (message : Payload)
| DuplexMetadataPush (message : Payload)
| DuplexRequestResponse (message : Payload)
| DuplexRequestStream (message : Payload)
| DuplexRequestChannel (messages : Publisher)
| DuplexClose
| CloserCalled (slot : nat) (err : option error)
| NilFuncCalled (slot : nat)
| Panic (v : error).

(** A computation with effects: its events, then its result. *)
Definition IO (A : Type) : Type := list event * A.

Definition io_ret {A} (a : A) : IO A := ([], a).
Definition io_bind {A B} (m : IO A) (k : A -> IO B) : IO B :=
  let r := k m.2 in (m.1 ++ r.1, r.2).
Definition emit (e : event) : IO unit := ([e], tt).

Declare Scope io_scope.
Delimit Scope io_scope with io.
Notation "x <- m ;; k" := (io_bind m (λ x, k))
  (at level 100, m at next level, right associativity) : io_scope.
Notation "m ;;; k" := (io_bind m (λ _, k))
  (at level 100, right associativity) : io_scope.
Local Open Scope io_scope.

Definition logger_Warnf (format : string) (arg : error) : IO unit :=
  emit (Logged WARN format arg).
Definition logger_Errorf (format : string) (arg : error) : IO unit :=
  emit (Logged ERROR format arg).

(** [for _, x := range xs { body(x) }] *)
Fixpoint for_each {A} (xs : list A) (body : A -> IO unit) : IO unit :=
  match xs with
  | [] => io_ret tt
  | x :: xs' => body x ;;; for_each xs' body
  end.

Definition errUnsupportedMetadataPush := errors_New "unsupported METADATA_PUSH".
Definition errUnsupportedFireAndForget := errors_New "unsupported FIRE_AND_FORGET".
Definition errUnsupportedRequestResponse := errors_New "unsupported REQUEST_RESPONSE".
Definition errUnsupportedRequestStream := errors_New "unsupported REQUEST_STREAM".
Definition errUnsupportedRequestChannel := errors_New "unsupported REQUEST_CHANNEL".

(** *** [AbstractRSocket] *)

(** The five handlers; [None] is a [nil] func. *)
Record AbstractRSocket : Type := mkAbstractRSocket {
  FF : option (Payload -> IO unit);
  MP : option (Payload -> IO unit);
  RR : option (Payload -> IO Mono);
  RS : option (Payload -> IO Flux);
  RC : option (Publisher -> IO Flux)
}.

Module AbstractRSocket_.
Definition MetadataPush (p : AbstractRSocket) (message : Payload) : IO unit :=
  match MP p with
  | None => logger_Errorf "%s\n" errUnsupportedMetadataPush
  | Some f => f message
  end.

Definition FireAndForget (p : AbstractRSocket) (message : Payload) : IO unit :=
  match FF p with
  | None => logger_Errorf "%s\n" errUnsupportedFireAndForget
  | Some f => f message
  end.

Definition RequestResponse (p : AbstractRSocket) (message : Payload) : IO Mono :=
  match RR p with
  | None => io_ret (mono_Error errUnsupportedRequestResponse)
  | Some f => f message
  end.

Definition RequestStream (p : AbstractRSocket) (message : Payload) : IO Flux :=
  match RS p with
  | None => io_ret (flux_Error errUnsupportedRequestStream)
  | Some f => f message
  end.

Definition RequestChannel (p : AbstractRSocket) (messages : Publisher) : IO Flux :=
  match RC p with
  | None => io_ret (flux_Error errUnsupportedRequestChannel)
  | Some f => f messages
  end.
End AbstractRSocket_.

(** *** [DuplexRSocket], through its interface

    What the connected peer answers to each request, and what closing the
    connection returns.  Each call is an event of the run. *)
Record DuplexRSocket : Type := mkDuplexRSocket {
  peer_RequestResponse : Payload -> Mono;
  peer_RequestStream : Payload -> Flux;
  peer_RequestChannel : Publisher -> Flux;
  peer_Close : option error
}.

Module DuplexRSocket_.
Definition FireAndForget (d : DuplexRSocket) (message : Payload) : IO unit :=
  emit (DuplexFireAndForget message).
Definition MetadataPush (d : DuplexRSocket) (message : Payload) : IO unit :=
  emit (DuplexMetadataPush message).
Definition RequestResponse (d : DuplexRSocket) (message : Payload) : IO Mono :=
  emit (DuplexRequestResponse message) ;;; io_ret (peer_RequestResponse d message).
Definition RequestStream (d : DuplexRSocket) (message : Payload) : IO Flux :=
  emit (DuplexRequestStream message) ;;; io_ret (peer_RequestStream d message).
Definition RequestChannel (d : DuplexRSocket) (messages : Publisher) : IO Flux :=
  emit (DuplexRequestChannel messages) ;;; io_ret (peer_RequestChannel d messages).
Definition Close (d : DuplexRSocket) : IO (option error) :=
  emit DuplexClose ;;; io_ret (peer_Close d).
End DuplexRSocket_.

(** *** The lease *)

(** Modelled from the spec: the type [leaser] with [newLeaser], [refresh]
    and [allow] is used by [baseSocket] and is not among the sources.  The
    design document gives it a deadline (an absolute instant) and a count
    of remaining requests; instants and durations are integers here, in
    the clock's unit, and the count has the type of [refreshLease]'s
    parameter [n int64]. *)
Record leaser : Type := mkLeaser { deadline : Z; remaining : Z }.

Definition errLeaseExpired := errors_New "lease expired".
Definition errLeaseExhausted := errors_New "lease exhausted".

(** Modelled from the spec: [newLeaser] installs a window. *)
Definition newLeaser (deadline n : Z) : leaser :=
  {| deadline := deadline; remaining := n |}.

(** Modelled from the spec: [refresh] replaces both fields, nothing of
    the former window is kept. *)
Definition refresh (deadline n : Z) (l : leaser) : leaser :=
  {| deadline := deadline; remaining := n |}.

(** Modelled from the spec: [allow], on a receiver that may be [nil],
    at the instant [now]: if no window was ever installed, allow; else if
    [now >= deadline], deny with "lease expired"; else if
    [remaining == 0], deny with "lease exhausted"; else decrement
    [remaining] by 1 and allow.  The result is the error ([None] allows)
    and the receiver afterwards. *)
Definition allow (now : Z) (l : option leaser) : option error * option leaser :=
  match l with
  | None => (None, None)
  | Some w =>
      if deadline w <=? now then (Some errLeaseExpired, Some w)
      else if remaining w =? 0 then (Some errLeaseExhausted, Some w)
      else (None, Some {| deadline := deadline w; remaining := remaining w - 1 |})
  end.

(** *** [baseSocket] *)

Inductive outcome : Type := Returned | Panicked (v : error).

(** A close handler [func(error)]: what happens when it is called. *)
Definition closer : Type := option error -> outcome.

(** [once] is the [done] flag of the [sync.Once]. *)
Record baseSocket : Type := mkBaseSocket {
  socket : DuplexRSocket;
  closers : list (option closer);
  once : bool;
  reqLease : option leaser
}.

Definition newBaseSocket (rawSocket : DuplexRSocket) : baseSocket :=
  {| socket := rawSocket; closers := []; once := false; reqLease := None |}.

(** Modelled from the spec: [tryRecover] is not among the sources; it
    turns what [recover()] returned into an error, [nil] when nothing was
    recovered, so that a caught fault is logged. *)
Definition tryRecover (r : option error) : option error := r.

Module baseSocket_.

(** [now] is what [time.Now()] returns during the call. *)
Definition refreshLease (now ttl n : Z) (p : baseSocket) : baseSocket :=
  let deadline := now + ttl in
  match reqLease p with
  | None =>
      {| socket := socket p; closers := closers p; once := once p;
         reqLease := Some (newLeaser deadline n) |}
  | Some l =>
      {| socket := socket p; closers := closers p; once := once p;
         reqLease := Some (refresh deadline n l) |}
  end.

(** [p.reqLease.allow()]: the error, and [p] with the lease afterwards. *)
Definition reqLease_allow (now : Z) (p : baseSocket) : option error * baseSocket :=
  let r := allow now (reqLease p) in
  (r.1, {| socket := socket p; closers := closers p; once := once p;
           reqLease := r.2 |}).

Definition FireAndForget (now : Z) (p : baseSocket) (message : Payload)
  : IO baseSocket :=
  let r := reqLease_allow now p in
  match r.1 with
  | Some err => logger_Warnf "request FireAndForget failed: %v\n" err
  | None => io_ret tt
  end ;;;
  DuplexRSocket_.FireAndForget (socket r.2) message ;;;
  io_ret r.2.

Definition MetadataPush (p : baseSocket) (message : Payload) : IO baseSocket :=
  DuplexRSocket_.MetadataPush (socket p) message ;;;
  io_ret p.

Definition RequestResponse (now : Z) (p : baseSocket) (message : Payload)
  : IO (Mono * baseSocket) :=
  let r := reqLease_allow now p in
  match r.1 with
  | Some err => io_ret (mono_Error err, r.2)
  | None =>
      m <- DuplexRSocket_.RequestResponse (socket r.2) message ;;
      io_ret (m, r.2)
  end.

Definition RequestStream (now : Z) (p : baseSocket) (message : Payload)
  : IO (Flux * baseSocket) :=
  let r := reqLease_allow now p in
  match r.1 with
  | Some err => io_ret (flux_Error err, r.2)
  | None =>
      f <- DuplexRSocket_.RequestStream (socket r.2) message ;;
      io_ret (f, r.2)
  end.

Definition RequestChannel (now : Z) (p : baseSocket) (messages : Publisher)
  : IO (Flux * baseSocket) :=
  let r := reqLease_allow now p in
  match r.1 with
  | Some err => io_ret (flux_Error err, r.2)
  | None =>
      f <- DuplexRSocket_.RequestChannel (socket r.2) messages ;;
      io_ret (f, r.2)
  end.

Definition OnClose (p : baseSocket) (fn : option closer) : baseSocket :=
  match fn with
  | Some _ =>
      {| socket := socket p; closers := closers p ++ [fn]; once := once p;
         reqLease := reqLease p |}
  | None => p
  end.

(** The inner [func(fn func(error)) { defer ...; fn(err) }] applied to
    the handler in [slot]: the call, then the deferred function, which
    recovers whatever the call raised and logs it.  Calling a [nil]
    func is a fault of the runtime, recovered like any other. *)
Definition call_closer (slot : nat) (fn : option closer) (err : option error)
  : IO unit :=
  recovered <- match fn with
               | Some f =>
                   emit (CloserCalled slot err) ;;;
                   io_ret (match f err with
                           | Returned => None
                           | Panicked v => Some v
                           end)
               | None =>
                   emit (NilFuncCalled slot) ;;;
                   io_ret (Some (runtime_Error
                     "invalid memory address or nil pointer dereference"))
               end ;;
  match tryRecover recovered with
  | Some e => logger_Errorf "handle socket closer failed: %s\n" e
  | None => io_ret tt
  end.

(** The function handed to [p.once.Do]: it returns what it assigned to
    the named result [err].  [p.closers[l-i-1]] is evaluated outside the
    [recover], so an index out of range would be a panic of [Close]
    itself. *)
Definition close_once (p : baseSocket) : IO (option error) :=
  err <- DuplexRSocket_.Close (socket p) ;;
  let l := length (closers p) in
  for_each (seq 0 l) (λ i,
    match closers p !! (l - i - 1)%nat with
    | Some fn => call_closer (l - i - 1) fn err
    | None => emit (Panic (runtime_Error "index out of range"))
    end) ;;;
  io_ret err.

(** [Close] when no other call of it is under way: [once.Do] runs its
    argument unless [done] is set, and sets it; the named result stays
    [nil] when the argument is not run. *)
Definition Close (p : baseSocket) : IO (option error * baseSocket) :=
  if once p then io_ret (None, p)
  else
    err <- close_once p ;;
    io_ret (err, {| socket := socket p; closers := closers p; once := true;
                    reqLease := reqLease p |}).

End baseSocket_.


(** *** [Close] under concurrent callers

    [Close] is [p.once.Do(f)] and [sync.Once] is
    [[
      func (o *Once) Do(f func()) { if o.done.Load() == 0 { o.doSlow(f) } }
      func (o *Once) doSlow(f func()) {
        o.m.Lock(); defer o.m.Unlock()
        if o.done.Load() == 0 { defer o.done.Store(1); f() }
      }
    ]]
    Each caller is at one of these points. *)
Inductive pc : Type :=
| Enter                                          (* about to load [done] *)
| Lock                                           (* in [doSlow], at [o.m.Lock()] *)
| Check                                          (* holds [m], about to load [done] again *)
| Running (todo : list event) (err : option error) (* holds [m], inside [f] *)
| Store (err : option error)                     (* holds [m], at the deferred [done.Store(1)] *)
| Unlock (err : option error)                    (* holds [m], at the deferred [m.Unlock()] *)
| Return (err : option error).                   (* [Close] has returned [err] *)

(** The callers of [Close] on one socket, the mutex and the flag of its
    [sync.Once], and the events so far. *)
Record run : Type := mkRun {
  callers : list pc;
  mutex : bool;
  done : bool;
  events : list event
}.

Definition start (p : baseSocket) (K : nat) : run :=
  {| callers := replicate K Enter; mutex := false; done := once p; events := [] |}.

(** Caller [i] takes its next step; nothing happens when it waits for the
    mutex, has returned, or does not exist.  Inside [f] the events of
    [close_once] happen one step at a time. *)
Definition step (p : baseSocket) (σ : run) (i : nat) : run :=
  match callers σ !! i with
  | Some Enter =>
      {| callers := <[i := if done σ then Return None else Lock]> (callers σ);
         mutex := mutex σ; done := done σ; events := events σ |}
  | Some Lock =>
      if mutex σ then σ
      else {| callers := <[i := Check]> (callers σ);
              mutex := true; done := done σ; events := events σ |}
  | Some Check =>
      {| callers := <[i := if done σ then Unlock None
                           else Running (baseSocket_.close_once p).1
                                        (baseSocket_.close_once p).2]> (callers σ);
         mutex := mutex σ; done := done σ; events := events σ |}
  | Some (Running (e :: todo) err) =>
      {| callers := <[i := Running todo err]> (callers σ);
         mutex := mutex σ; done := done σ; events := events σ ++ [e] |}
  | Some (Running [] err) =>
      {| callers := <[i := Store err]> (callers σ);
         mutex := mutex σ; done := done σ; events := events σ |}
  | Some (Store err) =>
      {| callers := <[i := Unlock err]> (callers σ);
         mutex := mutex σ; done := true; events := events σ |}
  | Some (Unlock err) =>
      {| callers := <[i := Return err]> (callers σ);
         mutex := false; done := done σ; events := events σ |}
  | Some (Return _) | None => σ
  end.

(** A schedule names the caller that moves next, step after step. *)
Definition exec (p : baseSocket) (σ : run) (schedule : list nat) : run :=
  foldl (step p) σ schedule.

Definition returned (c : pc) : bool :=
  match c with Return _ => true | _ => false end.

(** Every caller has returned. *)
Definition finished (σ : run) : bool := forallb returned (callers σ).

(** A schedule: the first caller goes through [Close] alone, then the
    others arrive. *)
Definition one_by_one (p : baseSocket) (K : nat) : list nat :=
  replicate 3 0%nat ++ replicate (length (baseSocket_.close_once p).1) 0%nat
  ++ replicate 3 0%nat ++ seq 1 (K - 1).

(** A caller at [c] holds the mutex. *)
Definition holds (c : pc) : bool :=
  match c with
  | Check | Running _ _ | Store _ | Unlock _ => true
  | Enter | Lock | Return _ => false
  end.

(** A caller at [c] is inside [f], [done] not yet stored. *)
Definition inside (c : pc) : bool :=
  match c with Running _ _ | Store _ => true | _ => false end.

(** What holds of every run that starts with [done] unset: at most one
    caller holds the mutex, and the mutex is locked exactly when one does;
    the events so far and those still to come in [f] make up
    [close_once p]; [done] is set only after all of them. *)
Record invariant (p : baseSocket) (σ : run) : Prop := mkInvariant {
  inv_unique : ∀ i j ci cj,
    callers σ !! i = Some ci → callers σ !! j = Some cj →
    holds ci = true → holds cj = true → i = j;
  inv_mutex :
    mutex σ = true ↔ ∃ i c, callers σ !! i = Some c ∧ holds c = true;
  inv_local : ∀ i c,
    callers σ !! i = Some c →
    match c with
    | Running todo err =>
        done σ = false ∧ events σ ++ todo = (baseSocket_.close_once p).1 ∧
        err = (baseSocket_.close_once p).2
    | Store err =>
        done σ = false ∧ events σ = (baseSocket_.close_once p).1
    | Unlock _ | Return _ => done σ = true
    | Enter | Lock | Check => True
    end;
  inv_done : done σ = true → events σ = (baseSocket_.close_once p).1;
  inv_fresh :
    done σ = false →
    (∀ i c, callers σ !! i = Some c → inside c = false) →
    events σ = []
}.

(** *** Reading a run *)

(** The close handlers called, in order: the slot and the argument. *)
Definition closer_calls (evs : list event) : list (nat * option error) :=
  omap (λ e, match e with CloserCalled slot err => Some (slot, err) | _ => None end) evs.

Definition is_DuplexClose (e : event) : bool :=
  match e with DuplexClose => true | _ => false end.

(** [allow] once at each of the instants, in order. *)
Fixpoint allow_each (times : list Z) (l : option leaser)
  : list (option error) * option leaser :=
  match times with
  | [] => ([], l)
  | now :: times' =>
      let r := allow now l in
      let rs := allow_each times' r.2 in
      (r.1 :: rs.1, rs.2)
  end.

(** *** A caller's requests, one after the other *)

Inductive request : Type :=
| ReqFireAndForget (message : Payload)
| ReqMetadataPush (message : Payload)
| ReqRequestResponse (message : Payload)
| ReqRequestStream (message : Payload)
| ReqRequestChannel (messages : Publisher).

(** The request [r] made on [p] at the instant [now]; the result, if any,
    is dropped. *)
Definition dispatch (now : Z) (p : baseSocket) (r : request) : IO baseSocket :=
  match r with
  | ReqFireAndForget m => baseSocket_.FireAndForget now p m
  | ReqMetadataPush m => baseSocket_.MetadataPush p m
  | ReqRequestResponse m =>
      x <- baseSocket_.RequestResponse now p m ;; io_ret x.2
  | ReqRequestStream m =>
      x <- baseSocket_.RequestStream now p m ;; io_ret x.2
  | ReqRequestChannel ms =>
      x <- baseSocket_.RequestChannel now p ms ;; io_ret x.2
  end.

Fixpoint dispatch_all (p : baseSocket) (rs : list (Z * request)) : IO baseSocket :=
  match rs with
  | [] => io_ret p
  | (now, r) :: rs' => p' <- dispatch now p r ;; dispatch_all p' rs'
  end.

(** The call of the duplex socket that forwards [r]. *)
Definition forwarded (r : request) : event :=
  match r with
  | ReqFireAndForget m => DuplexFireAndForget m
  | ReqMetadataPush m => DuplexMetadataPush m
  | ReqRequestResponse m => DuplexRequestResponse m
  | ReqRequestStream m => DuplexRequestStream m
  | ReqRequestChannel ms => DuplexRequestChannel ms
  end.

(** The requests with a result that reached the duplex socket. *)
Definition is_answered (e : event) : bool :=
  match e with
  | DuplexRequestResponse _ | DuplexRequestStream _ | DuplexRequestChannel _ => true
  | _ => false
  end.

(** *** Who gets the result of [Close] *)

(** What holds, besides [invariant], of every run that starts with [done]
    unset: until [done] is set nobody has left [doSlow], and whoever is
    inside [f] carries the result of [close_once]; once it is set, one
    caller, the one that ran [f], carries that result out and every other
    caller carries [nil]. *)
Definition result_invariant (p : baseSocket) (σ : run) : Prop :=
  (done σ = false →
   ∀ i c, callers σ !! i = Some c →
     match c with
     | Unlock _ | Return _ => False
     | Running _ err | Store err => err = (baseSocket_.close_once p).2
     | Enter | Lock | Check => True
     end) ∧
  (done σ = true →
   ∃ w, (callers σ !! w = Some (Unlock (baseSocket_.close_once p).2) ∨
         callers σ !! w = Some (Return (baseSocket_.close_once p).2)) ∧
        ∀ j c, j ≠ w → callers σ !! j = Some c →
          match c with
          | Enter | Lock | Check | Unlock None | Return None => True
          | _ => False
          end).

(** *** Sample values *)

Definition sample_payload : Payload :=
  {| Data := "ping"; Metadata := Some "route" |}.

(** A peer that echoes, and whose connection closes with an error. *)
Definition sample_peer : DuplexRSocket :=
  {| peer_RequestResponse := mono_Just;
     peer_RequestStream := λ m, flux_Just [m];
     peer_RequestChannel := flux_Just;
     peer_Close := Some (errors_New "broken pipe") |}.

Definition quiet_closer : closer := λ _, Returned.
Definition faulty_closer : closer := λ _, Panicked (errors_New "boom").

End socket.

(** ** Package [rsocket] *)

Module rsocket.

Import socket.

Definition OptAbstractSocket : Type := AbstractRSocket -> AbstractRSocket.

(** [opts ...OptAbstractSocket] are applied in order to [&socket.AbstractRSocket{}]. *)
Definition NewAbstractSocket (opts : list OptAbstractSocket) : AbstractRSocket :=
  foldl (λ sk fn, fn sk)
    {| FF := None; MP := None; RR := None; RS := None; RC := None |} opts.

Definition MetadataPush (fn : option (Payload -> IO unit)) : OptAbstractSocket :=
  λ sk, {| FF := FF sk; MP := fn; RR := RR sk; RS := RS sk; RC := RC sk |}.

Definition FireAndForget (fn : option (Payload -> IO unit)) : OptAbstractSocket :=
  λ sk, {| FF := fn; MP := MP sk; RR := RR sk; RS := RS sk; RC := RC sk |}.

Definition RequestResponse (fn : option (Payload -> IO Mono)) : OptAbstractSocket :=
  λ sk, {| FF := FF sk; MP := MP sk; RR := fn; RS := RS sk; RC := RC sk |}.

Definition RequestStream (fn : option (Payload -> IO Flux)) : OptAbstractSocket :=
  λ sk, {| FF := FF sk; MP := MP sk; RR := RR sk; RS := fn; RC := RC sk |}.

Definition RequestChannel (fn : option (Publisher -> IO Flux)) : OptAbstractSocket :=
  λ sk, {| FF := FF sk; MP := MP sk; RR := RR sk; RS := RS sk; RC := fn |}.

End rsocket.

(** * Properties *)

Import socket.

(** ** The default responder *)

(** C5. On a default responder whose handler for a model is unset, whatever
    the payload and the other handlers: [RequestResponse], [RequestStream]
    and [RequestChannel] return the already-failed result that carries the
    error of their own model; [FireAndForget] and [MetadataPush] log the
    error of their own model and return, with no other effect; and the five
    errors differ from one another. *)
Theorem C5_unset_handler_defaults :
  (∀ ff mp rs rc message,
     AbstractRSocket_.RequestResponse
       {| FF := ff; MP := mp; RR := None; RS := rs; RC := rc |} message
     = ([], mono_Error (errors_New "unsupported REQUEST_RESPONSE"))) ∧
  (∀ ff mp rr rc message,
     AbstractRSocket_.RequestStream
       {| FF := ff; MP := mp; RR := rr; RS := None; RC := rc |} message
     = ([], flux_Error (errors_New "unsupported REQUEST_STREAM"))) ∧
  (∀ ff mp rr rs messages,
     AbstractRSocket_.RequestChannel
       {| FF := ff; MP := mp; RR := rr; RS := rs; RC := None |} messages
     = ([], flux_Error (errors_New "unsupported REQUEST_CHANNEL"))) ∧
  (∀ mp rr rs rc message,
     AbstractRSocket_.FireAndForget
       {| FF := None; MP := mp; RR := rr; RS := rs; RC := rc |} message
     = ([Logged ERROR "%s\n" (errors_New "unsupported FIRE_AND_FORGET")], tt)) ∧
  (∀ ff rr rs rc message,
     AbstractRSocket_.MetadataPush
       {| FF := ff; MP := None; RR := rr; RS := rs; RC := rc |} message
     = ([Logged ERROR "%s\n" (errors_New "unsupported METADATA_PUSH")], tt)) ∧
  NoDup [errUnsupportedMetadataPush; errUnsupportedFireAndForget;
         errUnsupportedRequestResponse; errUnsupportedRequestStream;
         errUnsupportedRequestChannel].
Proof.
  repeat split; try reflexivity.
  compute_done.
Qed.

(** ** The lease and the gated requests *)

Lemma reqLease_allow_no_lease now p :
  reqLease p = None → (baseSocket_.reqLease_allow now p).1 = None.
Proof. unfold baseSocket_.reqLease_allow. by intros ->. Qed.

(** A denied [FireAndForget] logs the denial, and then goes on to the duplex
    socket all the same: the [if] has no [return]. *)
Lemma FireAndForget_denied now p message err :
  (baseSocket_.reqLease_allow now p).1 = Some err →
  baseSocket_.FireAndForget now p message
  = ([Logged WARN "request FireAndForget failed: %v\n" err;
      DuplexFireAndForget message], (baseSocket_.reqLease_allow now p).2).
Proof. unfold baseSocket_.FireAndForget. by intros ->. Qed.

Lemma FireAndForget_allowed now p message :
  (baseSocket_.reqLease_allow now p).1 = None →
  baseSocket_.FireAndForget now p message
  = ([DuplexFireAndForget message], (baseSocket_.reqLease_allow now p).2).
Proof. unfold baseSocket_.FireAndForget. by intros ->. Qed.

Lemma RequestResponse_denied now p message err :
  (baseSocket_.reqLease_allow now p).1 = Some err →
  baseSocket_.RequestResponse now p message
  = ([], (mono_Error err, (baseSocket_.reqLease_allow now p).2)).
Proof. unfold baseSocket_.RequestResponse. by intros ->. Qed.

Lemma RequestStream_denied now p message err :
  (baseSocket_.reqLease_allow now p).1 = Some err →
  baseSocket_.RequestStream now p message
  = ([], (flux_Error err, (baseSocket_.reqLease_allow now p).2)).
Proof. unfold baseSocket_.RequestStream. by intros ->. Qed.

Lemma RequestChannel_denied now p messages err :
  (baseSocket_.reqLease_allow now p).1 = Some err →
  baseSocket_.RequestChannel now p messages
  = ([], (flux_Error err, (baseSocket_.reqLease_allow now p).2)).
Proof. unfold baseSocket_.RequestChannel. by intros ->. Qed.

(** C1. The socket [newBaseSocket sample_peer] gets a lease of 0 requests
    for 10 ticks at instant 0; at instant 5 the lease denies.
    [FireAndForget] then logs the denial and still hands the message to the
    duplex socket, where the design document has it dropped;
    [RequestResponse], [RequestStream] and [RequestChannel] return the
    failed result with the denial and do not reach the duplex socket. *)
Theorem C1_denied_FireAndForget_reaches_duplex :
  let p := baseSocket_.refreshLease 0 10 0 (newBaseSocket sample_peer) in
  (baseSocket_.reqLease_allow 5 p).1 = Some errLeaseExhausted ∧
  baseSocket_.FireAndForget 5 p sample_payload
  = ([Logged WARN "request FireAndForget failed: %v\n" errLeaseExhausted;
      DuplexFireAndForget sample_payload], p) ∧
  baseSocket_.RequestResponse 5 p sample_payload
  = ([], (mono_Error errLeaseExhausted, p)) ∧
  baseSocket_.RequestStream 5 p sample_payload
  = ([], (flux_Error errLeaseExhausted, p)) ∧
  baseSocket_.RequestChannel 5 p [sample_payload]
  = ([], (flux_Error errLeaseExhausted, p)).
Proof. repeat split. Qed.

(** C8. Whatever the payload and the state of the socket, lease included,
    [MetadataPush] hands the message unchanged to the duplex socket, does
    nothing else, and leaves the socket, lease included, as it was. *)
Theorem C8_MetadataPush_not_gated (p : baseSocket) (message : Payload) :
  baseSocket_.MetadataPush p message = ([DuplexMetadataPush message], p).
Proof. reflexivity. Qed.

Lemma allow_each_within (times : list Z) (d r : Z) :
  Forall (λ now, now < d) times →
  Z.of_nat (length times) <= r →
  allow_each times (Some {| deadline := d; remaining := r |})
  = (replicate (length times) None,
     Some {| deadline := d; remaining := r - Z.of_nat (length times) |}).
Proof.
  intros Hall. revert r. induction Hall as [|now times Hnow _ IH]; intros r Hr.
  - simpl. do 3 f_equal. lia.
  - cbn [length] in Hr. cbn [allow_each allow deadline remaining].
    destruct (Z.leb_spec d now) as [?|_]; [lia|].
    destruct (Z.eqb_spec r 0) as [?|_]; [lia|].
    cbn [fst snd]. rewrite IH by lia. cbn [length replicate fst snd].
    do 3 f_equal. lia.
Qed.

(** C4. The admission check is this case analysis: with no window ever
    installed, allow; else at or past the deadline, deny with "lease
    expired", whatever remains; else with nothing remaining, deny with
    "lease exhausted"; else allow and leave one less.  And after
    [refreshLease] with quota [n], [n] checks before the deadline are all
    allowed, and one more before the deadline is denied with "lease
    exhausted". *)
Theorem C4_lease_admission :
  (∀ now, allow now None = (None, None)) ∧
  (∀ now w, deadline w <= now →
     allow now (Some w) = (Some (errors_New "lease expired"), Some w)) ∧
  (∀ now w, now < deadline w → remaining w = 0 →
     allow now (Some w) = (Some (errors_New "lease exhausted"), Some w)) ∧
  (∀ now w, now < deadline w → remaining w ≠ 0 →
     allow now (Some w)
     = (None, Some {| deadline := deadline w; remaining := remaining w - 1 |})) ∧
  (∀ p t0 ttl (times : list Z) t,
     Forall (λ now, now < t0 + ttl) times → t < t0 + ttl →
     let n := length times in
     let l := reqLease (baseSocket_.refreshLease t0 ttl (Z.of_nat n) p) in
     (allow_each times l).1 = replicate n None ∧
     (allow t (allow_each times l).2).1 = Some (errors_New "lease exhausted")).
Proof.
  split; [done|]. split; [|split; [|split]].
  - intros now w Hd. cbn. by destruct (Z.leb_spec (deadline w) now); [|lia].
  - intros now w Hd Hr. cbn. destruct (Z.leb_spec (deadline w) now); [lia|].
    by rewrite Hr.
  - intros now w Hd Hr. cbn. destruct (Z.leb_spec (deadline w) now); [lia|].
    by destruct (Z.eqb_spec (remaining w) 0).
  - intros p t0 ttl times t Hall Ht n l.
    assert (l = Some {| deadline := t0 + ttl; remaining := Z.of_nat n |}) as ->.
    { subst l. unfold baseSocket_.refreshLease. by destruct (reqLease p). }
    rewrite allow_each_within by (done || subst n; lia).
    split; [done|]. cbn.
    destruct (Z.leb_spec (t0 + ttl) t); [lia|].
    subst n. by rewrite Z.sub_diag.
Qed.

Lemma C4_lease_admission_witness :
  (allow_each [1; 2; 3] (reqLease (baseSocket_.refreshLease 0 10 3
     (newBaseSocket sample_peer)))).1 = [None; None; None] ∧
  (allow 4 (allow_each [1; 2; 3] (reqLease (baseSocket_.refreshLease 0 10 3
     (newBaseSocket sample_peer)))).2).1 = Some (errors_New "lease exhausted") ∧
  allow 10 (Some {| deadline := 10; remaining := 7 |})
  = (Some (errors_New "lease expired"), Some {| deadline := 10; remaining := 7 |}).
Proof.
  destruct C4_lease_admission as (_ & Hexp & _ & _ & Hrun).
  split; [|split].
  - apply (Hrun (newBaseSocket sample_peer) 0 10 [1; 2; 3] 4); [|lia].
    repeat constructor.
  - apply (Hrun (newBaseSocket sample_peer) 0 10 [1; 2; 3] 4); [|lia].
    repeat constructor.
  - apply (Hexp 10 {| deadline := 10; remaining := 7 |}). simpl. lia.
Defined.

(** ** The close sequence, one caller *)

Lemma for_each_events {A} (xs : list A) (body : A → IO unit) :
  (for_each xs body).1 = concat ((λ x, (body x).1) <$> xs).
Proof. induction xs as [|x xs IH]; [done|]. cbn. by rewrite IH. Qed.

(** The slots visited by the loop of [Close], [l-1] down to [0]. *)
Lemma visit_order {A B} (f : nat → A → B) (g : nat → B) (cs : list A) :
  (∀ i c, cs !! i = Some c → g i = f i c) →
  (λ i, g (length cs - i - 1)%nat) <$> seq 0 (length cs) = reverse (imap f cs).
Proof.
  revert g. induction cs as [|c cs IH] using rev_ind; intros g Hg; [done|].
  rewrite length_app, Nat.add_1_r. cbn [seq fmap list_fmap].
  rewrite imap_app, reverse_app. cbn. rewrite Nat.add_0_r. f_equal.
  - rewrite Nat.sub_0_r. apply Hg. rewrite lookup_app_r by lia.
    by rewrite Nat.sub_diag.
  - rewrite <- fmap_S_seq, <- list_fmap_compose.
    rewrite <- (IH (λ i, g i)).
    + apply list_fmap_ext. intros _ i _. cbn. done.
    + intros i c' Hi. apply Hg.
      rewrite lookup_app_l; [done|by eapply lookup_lt_Some].
Qed.

(** What [close_once] does: the duplex socket is closed, then the handlers
    are called from the last slot down to the first, each with the result of
    that close; the result is returned. *)
Lemma close_once_spec (p : baseSocket) :
  baseSocket_.close_once p
  = (DuplexClose :: concat (reverse (imap
       (λ slot fn, (baseSocket_.call_closer slot fn (peer_Close (socket p))).1)
       (closers p))),
     peer_Close (socket p)).
Proof.
  unfold baseSocket_.close_once, DuplexRSocket_.Close, io_bind, emit, io_ret.
  cbn [fst snd app]. rewrite app_nil_r, for_each_events. do 3 f_equal.
  apply (visit_order _
    (λ i, (match closers p !! i with
           | Some fn => baseSocket_.call_closer i fn (peer_Close (socket p))
           | None => ([Panic (runtime_Error "index out of range")], tt)
           end).1)).
  intros i c Hi. by rewrite Hi.
Qed.

(** Decides a goal [e ∈ l → False] for an explicit list [l]. *)
Ltac absurd_elem :=
  rewrite ?elem_of_app, ?elem_of_cons, ?elem_of_nil; intuition discriminate.

Lemma elem_of_concat {A} (x : A) (xss : list (list A)) :
  x ∈ concat xss ↔ ∃ xs, x ∈ xs ∧ xs ∈ xss.
Proof.
  induction xss as [|ys xss IH]; cbn.
  - split; [by intros ?%elem_of_nil|]. by intros (? & _ & ?%elem_of_nil).
  - rewrite elem_of_app, IH. split.
    + intros [?|(xs & ? & ?)]; [exists ys|exists xs]; by rewrite elem_of_cons; auto.
    + intros (xs & ? & [->|?]%elem_of_cons); eauto.
Qed.

Lemma closer_calls_app (xs ys : list event) :
  closer_calls (xs ++ ys) = closer_calls xs ++ closer_calls ys.
Proof. apply omap_app. Qed.

Lemma closer_calls_call slot (f : closer) err :
  closer_calls (baseSocket_.call_closer slot (Some f) err).1 = [(slot, err)].
Proof. unfold baseSocket_.call_closer. cbn. by destruct (f err). Qed.

Lemma closer_calls_concat (xss : list (list event)) :
  closer_calls (concat xss) = concat (closer_calls <$> xss).
Proof.
  induction xss as [|xs xss IH]; [done|]. cbn [concat fmap list_fmap].
  by rewrite closer_calls_app, IH.
Qed.

Lemma concat_singletons {A} (xs : list A) : concat ((λ x, [x]) <$> xs) = xs.
Proof. induction xs; [done|]. cbn. by f_equal. Qed.

(** With every slot holding a handler, the handler calls of [close_once]
    are exactly the slots from last to first, each with the close result. *)
Lemma closer_calls_close_once d (fns : list closer) done_ lease :
  closer_calls (baseSocket_.close_once
    {| socket := d; closers := Some <$> fns; once := done_; reqLease := lease |}).1
  = reverse (imap (λ slot _, (slot, peer_Close d)) fns).
Proof.
  rewrite close_once_spec. cbn [fst socket closers closer_calls omap list_omap].
  change (omap _ ?l) with (closer_calls l).
  rewrite closer_calls_concat, fmap_reverse, fmap_imap, imap_fmap.
  rewrite (imap_ext _ (λ slot _, [(slot, peer_Close d)]))
    by (intros; apply closer_calls_call).
  symmetry. etrans; [symmetry; apply concat_singletons|].
  by rewrite fmap_reverse, fmap_imap.
Qed.

Lemma elem_of_close_once (p : baseSocket) (e : event) :
  e ∈ (baseSocket_.close_once p).1 ↔
  e = DuplexClose ∨
  ∃ slot fn, closers p !! slot = Some fn ∧
             e ∈ (baseSocket_.call_closer slot fn (peer_Close (socket p))).1.
Proof.
  rewrite close_once_spec. cbn [fst]. rewrite elem_of_cons.
  apply or_iff_compat_l. rewrite elem_of_concat. split.
  - intros (evs & He & Hevs). rewrite elem_of_reverse in Hevs.
    apply elem_of_lookup_imap in Hevs as (slot & fn & -> & Hfn). eauto.
  - intros (slot & fn & Hfn & He). eexists. split; [done|].
    rewrite elem_of_reverse. apply elem_of_lookup_imap. eauto.
Qed.

Lemma filter_concat_nil {A} (P : A → Prop) `{∀ x, Decision (P x)}
    (xss : list (list A)) :
  (∀ xs, xs ∈ xss → filter P xs = []) → filter P (concat xss) = [].
Proof.
  induction xss as [|xs xss IH]; intros Hall; [done|]. cbn.
  rewrite filter_app, Hall, IH; [done| |]; intros; try apply Hall;
    rewrite elem_of_cons; auto.
Qed.

Lemma filter_DuplexClose_call slot fn err :
  filter (λ e, is_DuplexClose e = true) (baseSocket_.call_closer slot fn err).1 = [].
Proof.
  unfold baseSocket_.call_closer. destruct fn as [f|]; cbn; [|done].
  by destruct (f err).
Qed.

(** The duplex socket is closed once in [close_once]. *)
Lemma DuplexClose_once (p : baseSocket) :
  filter (λ e, is_DuplexClose e = true) (baseSocket_.close_once p).1 = [DuplexClose].
Proof.
  rewrite close_once_spec. cbn [fst]. rewrite filter_cons_True by done. f_equal.
  apply filter_concat_nil. intros xs Hxs. rewrite elem_of_reverse in Hxs.
  apply elem_of_lookup_imap in Hxs as (slot & fn & -> & _).
  apply filter_DuplexClose_call.
Qed.

(** [close_once] never panics: the slot it reads is always in range. *)
Lemma close_once_no_Panic (p : baseSocket) v :
  Panic v ∉ (baseSocket_.close_once p).1.
Proof.
  rewrite elem_of_close_once. intros [?|(slot & fn & _ & He)]; [done|].
  revert He. unfold baseSocket_.call_closer. destruct fn as [f|]; cbn.
  - destruct (f _); cbn; absurd_elem.
  - absurd_elem.
Qed.

(** ** Registering close handlers *)

Lemma closers_OnClose_fold (fns : list (option closer)) (p : baseSocket) :
  closers (foldl baseSocket_.OnClose p fns)
  = closers p ++ omap (λ fn, Some <$> fn) fns.
Proof.
  revert p. induction fns as [|fn fns IH]; intros p; cbn.
  - by rewrite app_nil_r.
  - rewrite IH. destruct fn as [f|]; cbn; [|done]. by rewrite <- app_assoc.
Qed.

(** C10. [OnClose] with a [nil] func leaves the socket as it was; so after
    any sequence of [OnClose] calls on a new socket the handler list holds
    exactly the non-nil funcs that were registered, in order, and the close
    sequence calls no [nil] func. *)
Theorem C10_OnClose_ignores_nil :
  (∀ p, baseSocket_.OnClose p None = p) ∧
  (∀ rawSocket (fns : list (option closer)),
     let p := foldl baseSocket_.OnClose (newBaseSocket rawSocket) fns in
     closers p = filter is_Some fns ∧
     (∀ slot, NilFuncCalled slot ∉ (baseSocket_.close_once p).1) ∧
     (∀ slot, NilFuncCalled slot ∉ (baseSocket_.Close p).1)).
Proof.
  split; [done|]. intros rawSocket fns p.
  assert (closers p = filter is_Some fns) as Hcl.
  { subst p. rewrite closers_OnClose_fold. cbn.
    induction fns as [|[f|] fns IH]; [done| |].
    - rewrite filter_cons_True by eauto. cbn. by f_equal.
    - rewrite filter_cons_False; [done|]. by intros [? [=]]. }
  assert (∀ slot, NilFuncCalled slot ∉ (baseSocket_.close_once p).1) as Hnil.
  { intros slot. rewrite elem_of_close_once.
    intros [?|(slot' & fn & Hfn & He)]; [done|].
    assert (is_Some fn) as [f ->].
    { rewrite Hcl in Hfn. apply list_elem_of_lookup_2 in Hfn.
      by apply list_elem_of_filter in Hfn as [? _]. }
    revert He. unfold baseSocket_.call_closer. cbn.
    destruct (f _); cbn; absurd_elem. }
  split; [done|]. split; [done|].
  intros slot. unfold baseSocket_.Close.
  destruct (once p); cbn; [absurd_elem|].
  rewrite app_nil_r. apply Hnil.
Qed.

Lemma Close_first (p : baseSocket) :
  once p = false →
  baseSocket_.Close p
  = ((baseSocket_.close_once p).1,
     (peer_Close (socket p),
      {| socket := socket p; closers := closers p; once := true;
         reqLease := reqLease p |})).
Proof.
  intros Hp. unfold baseSocket_.Close, io_bind, io_ret. rewrite Hp. cbn [fst snd].
  rewrite app_nil_r. by rewrite close_once_spec at 2.
Qed.

(** Once [done] is set, [Close] does nothing and returns [nil]. *)
Lemma Close_again (p : baseSocket) :
  once p = true → baseSocket_.Close p = ([], (None, p)).
Proof. intros Hp. unfold baseSocket_.Close. by rewrite Hp. Qed.

(** C6. Whatever the registered close handlers do, the first [Close]
    returns exactly what closing the duplex socket returned; every handler
    is called, from the last registered to the first, each with that result;
    a handler that panics with [v] has [v] logged as an error; and no panic
    leaves [Close]. *)
Theorem C6_closer_faults_isolated :
  ∀ rawSocket (fns : list closer) lease,
    let p := {| socket := rawSocket; closers := Some <$> fns; once := false;
                reqLease := lease |} in
    let r := baseSocket_.Close p in
    r.2.1 = peer_Close rawSocket ∧
    closer_calls r.1 = reverse (imap (λ slot _, (slot, peer_Close rawSocket)) fns) ∧
    (∀ slot f v, fns !! slot = Some f → f (peer_Close rawSocket) = Panicked v →
       Logged ERROR "handle socket closer failed: %s\n" v ∈ r.1) ∧
    (∀ v, Panic v ∉ r.1).
Proof.
  intros rawSocket fns lease p r. subst r. rewrite Close_first by done.
  cbn [fst snd]. split; [done|]. split; [apply closer_calls_close_once|].
  split; [|intros v; apply close_once_no_Panic].
  intros slot f v Hf Hv. apply elem_of_close_once. right.
  exists slot, (Some f). split.
  - subst p. cbn [closers]. rewrite list_lookup_fmap. apply fmap_Some. eauto.
  - subst p. cbn [socket peer_Close].
    unfold baseSocket_.call_closer, io_bind, emit, io_ret. cbn [fst snd].
    rewrite Hv. cbn. rewrite !elem_of_cons. auto.
Qed.

Lemma C6_closer_faults_isolated_witness :
  let r := baseSocket_.Close
    {| socket := sample_peer;
       closers := Some <$> [quiet_closer; faulty_closer; quiet_closer];
       once := false; reqLease := None |} in
  r.2.1 = Some (errors_New "broken pipe") ∧
  closer_calls r.1 = [(2%nat, Some (errors_New "broken pipe"));
                      (1%nat, Some (errors_New "broken pipe"));
                      (0%nat, Some (errors_New "broken pipe"))] ∧
  Logged ERROR "handle socket closer failed: %s\n" (errors_New "boom") ∈ r.1.
Proof.
  destruct (C6_closer_faults_isolated sample_peer
              [quiet_closer; faulty_closer; quiet_closer] None)
    as (Hret & Hcalls & Hlog & _).
  split; [exact Hret|]. split; [exact Hcalls|].
  apply (Hlog 1%nat faulty_closer (errors_New "boom")); reflexivity.
Defined.

(** ** The close sequence, concurrent callers *)

Lemma lookup_insert_inv {A} (l : list A) (i j : nat) (x y : A) :
  <[i:=x]> l !! j = Some y → (j = i ∧ y = x) ∨ (j ≠ i ∧ l !! j = Some y).
Proof.
  intros H. destruct (decide (i = j)) as [->|Hne].
  - left. split; [done|].
    rewrite list_lookup_insert_eq in H; [congruence|].
    apply lookup_lt_Some in H. by rewrite length_insert in H.
  - right. rewrite list_lookup_insert_ne in H by done. auto.
Qed.

Lemma lookup_insert_same {A} (l : list A) (i : nat) (x y : A) :
  l !! i = Some y → <[i:=x]> l !! i = Some x.
Proof. intros H. apply list_lookup_insert_eq. by eapply lookup_lt_Some. Qed.

Ltac split_lookups :=
  repeat match goal with
         | H : <[_:=_]> _ !! _ = Some _ |- _ =>
             apply lookup_insert_inv in H as [[-> ->]|[? H]]
         end.

Ltac same_caller :=
  match goal with
  | H1 : ?l !! ?i = Some _, H2 : ?l !! ?i = Some _ |- _ =>
      rewrite H1 in H2; inversion H2; subst; clear H2
  end.

(** Two callers that hold the mutex are one. *)
Ltac by_unique Hu :=
  first [done | eapply Hu; [eassumption|eassumption|done|done]].

Lemma invariant_start (p : baseSocket) (K : nat) :
  once p = false → invariant p (start p K).
Proof.
  intros Hp.
  assert (∀ i c, replicate K Enter !! i = Some c → c = Enter) as HE.
  { intros i c [-> _]%lookup_replicate. done. }
  constructor; cbn.
  - intros i j ci cj ->%HE. done.
  - split; [done|]. by intros (i & c & ->%HE & ?).
  - by intros i c ->%HE.
  - by rewrite Hp.
  - done.
Qed.

Lemma invariant_step (p : baseSocket) (σ : run) (i : nat) :
  invariant p σ → invariant p (step p σ i).
Proof.
  intros Hinv. pose proof Hinv as [Hu Hm Hl Hd Hf]. unfold step.
  destruct (callers σ !! i) as [c|] eqn:Hi; [|done].
  pose proof (Hl i c Hi) as Hli.
  destruct c as [ | | |[|e todo] err|err|err|err].
  - (* Enter *)
    constructor; cbn [callers mutex done events].
    + intros j k cj ck Hj Hk Hhj Hhk. split_lookups;
        try (by destruct (done σ)); eauto.
    + rewrite Hm. split.
      * intros (j & c & Hj & Hc). exists j, c. split; [|done].
        rewrite list_lookup_insert_ne; [done|]. intros ->. by same_caller.
      * intros (j & c & Hj & Hc). split_lookups; [by destruct (done σ)|eauto].
    + intros j c Hj. split_lookups; [by destruct (done σ) eqn:?|by apply Hl in Hj].
    + done.
    + intros Hdn Hin. apply Hf; [done|]. intros j c Hj.
      destruct (decide (j = i)) as [->|Hne]; [by same_caller|].
      apply (Hin j). by rewrite list_lookup_insert_ne.
  - (* Lock *)
    destruct (mutex σ) eqn:Hmx; [done|].
    assert (∀ j c, callers σ !! j = Some c → holds c = false) as Hnone.
    { intros j c Hj. destruct (holds c) eqn:Hc; [|done].
      assert (false = true); [|done]. apply Hm; eauto. }
    constructor; cbn [callers mutex done events].
    + intros j k cj ck Hj Hk Hhj Hhk. split_lookups; try done;
        apply Hnone in Hj || apply Hnone in Hk; congruence.
    + split; [|done]. intros _. exists i, Check. split; [|done].
      by eapply lookup_insert_same.
    + intros j c Hj. split_lookups; [done|by apply Hl in Hj].
    + done.
    + intros Hdn Hin. apply Hf; [done|]. intros j c Hj.
      apply Hnone in Hj. by destruct c.
  - (* Check *)
    assert (∀ j c, callers σ !! j = Some c → inside c = false) as Hout.
    { intros j c Hj. destruct (inside c) eqn:Hc; [|done].
      assert (j = i) as -> by (apply (Hu j i c Check); by destruct c).
      by same_caller. }
    constructor; cbn [callers mutex done events].
    + intros j k cj ck Hj Hk Hhj Hhk. split_lookups; by_unique Hu.
    + rewrite Hm. split.
      * intros _. eexists i, _. split; [by eapply lookup_insert_same|].
        by destruct (done σ).
      * intros _. by exists i, Check.
    + intros j c Hj. split_lookups; [|by apply Hl in Hj].
      destruct (done σ) eqn:Hdn; [done|]. rewrite Hf by done. done.
    + done.
    + intros Hdn Hin. rewrite Hdn in Hin.
      specialize (Hin i _ (lookup_insert_same _ _ _ _ Hi)). done.
  - (* Running, nothing left *)
    destruct Hli as (Hdn & Hev & Herr). rewrite app_nil_r in Hev.
    constructor; cbn [callers mutex done events].
    + intros j k cj ck Hj Hk Hhj Hhk. split_lookups; by_unique Hu.
    + rewrite Hm. split.
      * intros _. eexists i, _. split; [by eapply lookup_insert_same|done].
      * intros _. by exists i, (Running [] err).
    + intros j c Hj. split_lookups; [done|by apply Hl in Hj].
    + done.
    + intros _ Hin.
      specialize (Hin i _ (lookup_insert_same _ _ _ _ Hi)). done.
  - (* Running, one event *)
    destruct Hli as (Hdn & Hev & Herr).
    constructor; cbn [callers mutex done events].
    + intros j k cj ck Hj Hk Hhj Hhk. split_lookups; by_unique Hu.
    + rewrite Hm. split.
      * intros _. eexists i, _. split; [by eapply lookup_insert_same|done].
      * intros _. by exists i, (Running (e :: todo) err).
    + intros j c Hj. split_lookups.
      { by rewrite <- app_assoc. }
      pose proof (Hl j c Hj) as Hlj.
      destruct c; try done;
        (assert (j = i) by (by eapply (Hu j i _ (Running (e :: todo) err))));
        done.
    + congruence.
    + intros _ Hin.
      specialize (Hin i _ (lookup_insert_same _ _ _ _ Hi)). done.
  - (* Store *)
    destruct Hli as (Hdn & Hev).
    constructor; cbn [callers mutex done events].
    + intros j k cj ck Hj Hk Hhj Hhk. split_lookups; by_unique Hu.
    + rewrite Hm. split.
      * intros _. eexists i, _. split; [by eapply lookup_insert_same|done].
      * intros _. by exists i, (Store err).
    + intros j c Hj. split_lookups; [done|].
      pose proof (Hl j c Hj) as Hlj.
      destruct c; try done;
        (assert (j = i) by (by eapply (Hu j i _ (Store err)))); done.
    + done.
    + done.
  - (* Unlock *)
    constructor; cbn [callers mutex done events].
    + intros j k cj ck Hj Hk Hhj Hhk. split_lookups; by_unique Hu.
    + split; [done|]. intros (j & c & Hj & Hc). split_lookups; [done|].
      assert (j = i) by (by eapply (Hu j i c (Unlock err))). done.
    + intros j c Hj. split_lookups; [done|by apply Hl in Hj].
    + done.
    + congruence.
  - (* Return *)
    done.
Qed.

Lemma invariant_exec (p : baseSocket) (schedule : list nat) (σ : run) :
  invariant p σ → invariant p (exec p σ schedule).
Proof.
  revert σ. induction schedule as [|i schedule IH]; intros σ Hσ; [done|].
  cbn. apply IH. by apply invariant_step.
Qed.

Lemma length_callers_step (p : baseSocket) (σ : run) (i : nat) :
  length (callers (step p σ i)) = length (callers σ).
Proof.
  unfold step. destruct (callers σ !! i) as [c|]; [|done].
  destruct c as [ | | |[|e todo] err|err|err|err]; cbn;
    rewrite ?length_insert; try done.
  destruct (mutex σ); cbn; by rewrite ?length_insert.
Qed.

Lemma exec_cons (p : baseSocket) (σ : run) (i : nat) (schedule : list nat) :
  exec p σ (i :: schedule) = exec p (step p σ i) schedule.
Proof. reflexivity. Qed.

Lemma exec_app (p : baseSocket) (σ : run) (s1 s2 : list nat) :
  exec p σ (s1 ++ s2) = exec p (exec p σ s1) s2.
Proof. apply foldl_app. Qed.

Lemma length_callers_exec (p : baseSocket) (schedule : list nat) (σ : run) :
  length (callers (exec p σ schedule)) = length (callers σ).
Proof.
  revert σ. induction schedule as [|i schedule IH]; intros σ; [done|].
  by rewrite exec_cons, IH, length_callers_step.
Qed.

Lemma finished_lookup (σ : run) (i : nat) (c : pc) :
  finished σ = true → callers σ !! i = Some c → returned c = true.
Proof.
  unfold finished. rewrite forallb_forall. intros Hall Hc.
  apply Hall. by eapply list_elem_of_In, list_elem_of_lookup_2.
Qed.

(** When every caller has returned, all of [close_once] has happened,
    once. *)
Lemma invariant_finished (p : baseSocket) (σ : run) :
  invariant p σ → callers σ ≠ [] → finished σ = true →
  events σ = (baseSocket_.close_once p).1.
Proof.
  intros Hinv Hne Hfin. apply (inv_done p σ Hinv).
  destruct (callers σ) as [|c cs] eqn:Hcs; [done|].
  assert (callers σ !! 0%nat = Some c) as H0 by by rewrite Hcs.
  pose proof (finished_lookup σ 0 c Hfin H0) as Hret.
  pose proof (inv_local p σ Hinv 0%nat c H0) as Hloc.
  by destruct c.
Qed.

(** At every moment, what has happened is the beginning of [close_once]. *)
Lemma invariant_prefix (p : baseSocket) (σ : run) :
  invariant p σ → events σ `prefix_of` (baseSocket_.close_once p).1.
Proof.
  intros Hinv. destruct (done σ) eqn:Hdn.
  { by rewrite (inv_done p σ Hinv Hdn). }
  destruct (decide (Exists (λ c, inside c = true) (callers σ))) as [Hex|Hno].
  - apply Exists_exists in Hex as (c & Hc & Hin).
    apply list_elem_of_lookup_1 in Hc as [i Hi].
    pose proof (inv_local p σ Hinv i c Hi) as Hloc.
    destruct c; try done.
    + destruct Hloc as (_ & <- & _). by apply prefix_app_r.
    + by destruct Hloc as (_ & <-).
  - rewrite (inv_fresh p σ Hinv Hdn); [apply prefix_nil|].
    intros i c Hi. destruct (inside c) eqn:Hin; [|done].
    destruct Hno. apply Exists_exists. exists c. split; [|done].
    by eapply list_elem_of_lookup_2.
Qed.

(** *** Callers that arrive after [done] is set *)

Lemma late_step (p : baseSocket) (σ : run) (i : nat) :
  done σ = true → mutex σ = false →
  Forall (λ c, c = Enter ∨ returned c = true) (callers σ) →
  let σ' := step p σ i in
  done σ' = true ∧ mutex σ' = false ∧ events σ' = events σ ∧
  Forall (λ c, c = Enter ∨ returned c = true) (callers σ').
Proof.
  intros Hdn Hmx Hall. unfold step.
  destruct (callers σ !! i) as [c|] eqn:Hi; [|done].
  pose proof (proj1 (Forall_lookup _ _) Hall i c Hi) as [->|Hc].
  - rewrite Hdn. cbn. repeat split; try done.
    apply Forall_insert; [done|by right].
  - by destruct c.
Qed.

Lemma late_exec (p : baseSocket) (schedule : list nat) (σ : run) :
  done σ = true → mutex σ = false →
  Forall (λ c, c = Enter ∨ returned c = true) (callers σ) →
  events (exec p σ schedule) = events σ.
Proof.
  revert σ. induction schedule as [|i schedule IH]; intros σ Hdn Hmx Hall; [done|].
  destruct (late_step p σ i Hdn Hmx Hall) as (Hdn' & Hmx' & Hev' & Hall').
  rewrite exec_cons, IH by done. done.
Qed.

(** *** A schedule under which every caller returns *)

Ltac run_step :=
  cbn [callers mutex done events lookup list_lookup insert list_insert fst snd].

Lemma exec_running (p : baseSocket) (todo : list event) err rest m d evs :
  exec p {| callers := Running todo err :: rest; mutex := m; done := d;
            events := evs |} (replicate (length todo) 0%nat)
  = {| callers := Running [] err :: rest; mutex := m; done := d;
       events := evs ++ todo |}.
Proof.
  revert evs. induction todo as [|e todo IH]; intros evs.
  - cbn. by rewrite app_nil_r.
  - cbn [length replicate]. rewrite exec_cons. unfold step. cbn.
    rewrite IH. by rewrite <- app_assoc.
Qed.

Lemma exec_late_callers (p : baseSocket) (pre : list pc) (K : nat) evs :
  exec p {| callers := pre ++ replicate K Enter; mutex := false; done := true;
            events := evs |} (seq (length pre) K)
  = {| callers := pre ++ replicate K (Return None); mutex := false;
       done := true; events := evs |}.
Proof.
  revert pre. induction K as [|K IH]; intros pre; [done|].
  cbn [seq replicate]. rewrite exec_cons. unfold step.
  cbn [callers mutex done events].
  rewrite list_lookup_middle by done.
  rewrite insert_app_r_alt, Nat.sub_diag by done. cbn [insert list_insert].
  rewrite (cons_middle _ pre), app_assoc.
  replace (S (length pre)) with (length (pre ++ [Return None]))
    by (rewrite length_app; cbn; lia).
  rewrite IH. by rewrite <- app_assoc.
Qed.

Lemma exec_one_by_one (p : baseSocket) (K : nat) :
  once p = false →
  exec p (start p (S K)) (one_by_one p (S K))
  = {| callers := Return (baseSocket_.close_once p).2 :: replicate K (Return None);
       mutex := false; done := true; events := (baseSocket_.close_once p).1 |}.
Proof.
  intros Hp. unfold one_by_one, start. rewrite Hp.
  rewrite exec_app. cbn [replicate exec foldl].
  unfold step at 3. run_step. unfold step at 2. run_step.
  unfold step at 1. run_step.
  rewrite exec_app, exec_running. rewrite exec_app. cbn [replicate exec foldl].
  unfold step at 3. run_step. unfold step at 2. run_step.
  unfold step at 1. run_step.
  cbn [app Nat.sub]. rewrite Nat.sub_0_r.
  apply (exec_late_callers p [Return (baseSocket_.close_once p).2] K).
Qed.

Lemma finished_one_by_one (p : baseSocket) (K : nat) :
  once p = false → K ≠ 0%nat →
  finished (exec p (start p K) (one_by_one p K)) = true.
Proof.
  intros Hp HK. destruct K as [|K]; [done|].
  rewrite exec_one_by_one by done. unfold finished.
  cbn [callers forallb returned andb]. apply forallb_forall.
  by intros c [-> _]%list_elem_of_In%elem_of_replicate.
Qed.

(** C3. Take a socket whose [Close] has not run, with any registered close
    handlers.  One run of the close sequence closes the duplex socket once
    and calls every handler once, from the last registered to the first,
    each with the result of that close.  Under any interleaving of any
    number [K] of concurrent callers of [Close], what happens is at every
    moment a beginning of that one run, and exactly that one run once all
    callers have returned (which they can).  Callers that come after it,
    alone or concurrent, cause nothing. *)
Theorem C3_Close_runs_once :
  ∀ rawSocket (fns : list closer) lease (K : nat),
    let p := {| socket := rawSocket; closers := Some <$> fns; once := false;
                reqLease := lease |} in
    let sequence := (baseSocket_.close_once p).1 in
    let p' := (baseSocket_.Close p).2.2 in
    filter (λ e, is_DuplexClose e = true) sequence = [DuplexClose] ∧
    closer_calls sequence
    = reverse (imap (λ slot _, (slot, peer_Close rawSocket)) fns) ∧
    (∀ schedule,
       events (exec p (start p K) schedule) `prefix_of` sequence ∧
       (K ≠ 0%nat → finished (exec p (start p K) schedule) = true →
        events (exec p (start p K) schedule) = sequence)) ∧
    (K ≠ 0%nat → finished (exec p (start p K) (one_by_one p K)) = true) ∧
    (baseSocket_.Close p').1 = [] ∧
    (∀ K' schedule, events (exec p' (start p' K') schedule) = []).
Proof.
  intros rawSocket fns lease K p sequence p'.
  split; [apply DuplexClose_once|]. split; [apply closer_calls_close_once|].
  assert (∀ schedule, invariant p (exec p (start p K) schedule)) as Hinv.
  { intros schedule. by apply invariant_exec, invariant_start. }
  split; [|split; [|split]].
  - intros schedule. split; [by apply invariant_prefix|].
    intros HK Hfin. apply invariant_finished; [done| |done].
    intros Hnil. apply (f_equal length) in Hnil.
    rewrite length_callers_exec in Hnil. cbn in Hnil.
    rewrite length_replicate in Hnil. done.
  - intros HK. by apply finished_one_by_one.
  - subst p'. rewrite (Close_first p) by done. cbn [snd]. by rewrite Close_again.
  - intros K' schedule. subst p'. rewrite (Close_first p) by done. cbn [snd].
    rewrite late_exec; [done|done|done|]. cbn.
    apply Forall_forall. intros c [-> _]%elem_of_replicate. by left.
Qed.

Lemma C3_Close_runs_once_witness :
  let p := {| socket := sample_peer;
              closers := Some <$> [quiet_closer; faulty_closer; quiet_closer];
              once := false; reqLease := None |} in
  let schedule := [0; 1; 1; 1; 0; 2; 1; 1; 0; 1; 2; 1; 1; 1; 1; 1; 0; 0; 2; 0; 2; 2; 2]%nat in
  finished (exec p (start p 3) schedule) = true ∧
  events (exec p (start p 3) schedule)
  = [DuplexClose;
     CloserCalled 2 (Some (errors_New "broken pipe"));
     CloserCalled 1 (Some (errors_New "broken pipe"));
     Logged ERROR "handle socket closer failed: %s\n" (errors_New "boom");
     CloserCalled 0 (Some (errors_New "broken pipe"))].
Proof.
  split; [reflexivity|].
  destruct (C3_Close_runs_once sample_peer
              [quiet_closer; faulty_closer; quiet_closer] None 3)
    as (_ & _ & Hrun & _).
  destruct (Hrun [0; 1; 1; 1; 0; 2; 1; 1; 0; 1; 2; 1; 1; 1; 1; 1; 0; 0; 2; 0; 2; 2; 2]%nat)
    as [_ Hall].
  rewrite Hall; [reflexivity|lia|reflexivity].
Defined.

(** ** URI resolution *)

Import transport.

(** *** Strings *)

Lemma string_app_cons (x : ascii) (a b : string) :
  String x a +:+ b = String x (a +:+ b).
Proof. reflexivity. Qed.

Lemma string_app_nil_l (b : string) : "" +:+ b = b.
Proof. reflexivity. Qed.

(** Pushes [+:+] past the characters that are known. *)
Ltac norm_app := rewrite ?string_app_cons, ?string_app_nil_l.
Ltac norm_app_in H := rewrite ?string_app_cons, ?string_app_nil_l in H.

Lemma string_app_assoc (a b c : string) : (a +:+ b) +:+ c = a +:+ b +:+ c.
Proof. induction a as [|x a IH]; [done|]. norm_app. by rewrite IH. Qed.

Lemma string_app_nil_r (a : string) : a +:+ "" = a.
Proof. induction a as [|x a IH]; [done|]. norm_app. by rewrite IH. Qed.

Lemma strip_prefix_Some (l s rest : string) :
  strip_prefix l s = Some rest ↔ s = l +:+ rest.
Proof.
  revert s. induction l as [|a l IH]; intros s; cbn [strip_prefix]; norm_app.
  - split; congruence.
  - destruct s as [|b s]; [done|].
    destruct (Ascii.eqb_spec a b) as [->|Hne].
    + rewrite IH. split; congruence.
    + split; [done|]. congruence.
Qed.

Lemma all_in_app (p : ascii → bool) (a b : string) :
  all_in p (a +:+ b) = all_in p a && all_in p b.
Proof.
  induction a as [|x a IH]; [done|]. norm_app. cbn [all_in].
  by rewrite IH, andb_assoc.
Qed.

Lemma all_in_impl (p q : ascii → bool) (s : string) :
  (∀ c, p c = true → q c = true) → all_in p s = true → all_in q s = true.
Proof.
  intros Hpq. induction s as [|c s IH]; [done|]. cbn.
  intros [Hc Hs]%andb_true_iff. by rewrite (Hpq c Hc), IH.
Qed.

(** *** What the matcher returns, construct by construct *)

Lemma elem_of_runs (p : ascii → bool) (s c rest : string) :
  (c, rest) ∈ runs p s → s = c +:+ rest ∧ c ≠ "" ∧ all_in p c = true.
Proof.
  revert c rest. induction s as [|x s IH]; intros c rest; cbn.
  { by intros ?%elem_of_nil. }
  destruct (p x) eqn:Hx; [|by intros ?%elem_of_nil].
  rewrite elem_of_app, list_elem_of_fmap, list_elem_of_singleton.
  intros [([c' rest'] & [= -> ->] & Hin)|[= -> ->]].
  - apply IH in Hin as (-> & _ & Hall). cbn. by rewrite Hx, Hall.
  - cbn. by rewrite Hx.
Qed.

Lemma elem_of_rmatch_Cat r1 r2 pos s caps (m : thread) :
  m ∈ rmatch (Cat r1 r2) pos s caps ↔
  ∃ m1 m2, m1 ∈ rmatch r1 pos s caps ∧
           m2 ∈ rmatch r2 (pos + String.length m1.1.1) m1.1.2 m1.2 ∧
           m = (m1.1.1 +:+ m2.1.1, m2.1.2, m2.2).
Proof.
  cbn [rmatch]. rewrite list_elem_of_bind. split.
  - intros (m1 & (m2 & ->%list_elem_of_singleton & H2)%list_elem_of_bind & H1).
    eauto.
  - intros (m1 & m2 & H1 & H2 & ->). exists m1. split; [|done].
    apply list_elem_of_bind. exists m2. split; [|done].
    by apply list_elem_of_singleton.
Qed.

Lemma elem_of_rmatch_Lit l pos s caps (m : thread) :
  m ∈ rmatch (Lit l) pos s caps ↔ ∃ rest, s = l +:+ rest ∧ m = (l, rest, caps).
Proof.
  cbn [rmatch]. destruct (strip_prefix l s) as [rest|] eqn:Hl.
  - apply strip_prefix_Some in Hl as ->. rewrite list_elem_of_singleton. split.
    + intros ->. eauto.
    + intros (rest' & Heq & ->). apply strip_prefix_Some in Heq.
      rewrite (proj2 (strip_prefix_Some l _ rest) eq_refl) in Heq. congruence.
  - split; [by intros ?%elem_of_nil|]. intros (rest & Heq%strip_prefix_Some & _).
    congruence.
Qed.

Lemma elem_of_rmatch_Set1 p pos s caps (m : thread) :
  m ∈ rmatch (Set1 p) pos s caps →
  ∃ c rest, s = String c rest ∧ p c = true ∧ m = (String c "", rest, caps).
Proof.
  cbn [rmatch]. destruct s as [|c rest]; [by intros ?%elem_of_nil|].
  destruct (p c) eqn:Hc; [|by intros ?%elem_of_nil].
  intros ->%list_elem_of_singleton. eauto.
Qed.

Lemma elem_of_rmatch_SetPlus p pos s caps (m : thread) :
  m ∈ rmatch (SetPlus p) pos s caps →
  ∃ c rest, s = c +:+ rest ∧ c ≠ "" ∧ all_in p c = true ∧ m = (c, rest, caps).
Proof.
  cbn [rmatch]. intros ([c rest] & -> & Hin)%list_elem_of_fmap.
  apply elem_of_runs in Hin as (-> & ? & ?). by exists c, rest.
Qed.

Lemma elem_of_rmatch_Group i r pos s caps (m : thread) :
  m ∈ rmatch (Group i r) pos s caps ↔
  ∃ m', m' ∈ rmatch r pos s caps ∧ m = (m'.1.1, m'.1.2, <[i:=m'.1.1]> m'.2).
Proof.
  cbn [rmatch]. rewrite list_elem_of_fmap. split; intros (m' & ? & ?); eauto.
Qed.

Lemma elem_of_rmatch_EndText pos s caps (m : thread) :
  m ∈ rmatch EndText pos s caps → s = "" ∧ m = ("", "", caps).
Proof.
  cbn [rmatch]. destruct s; [|by intros ?%elem_of_nil].
  by intros ->%list_elem_of_singleton.
Qed.

Lemma elem_of_rmatch_BeginText pos s caps (m : thread) :
  m ∈ rmatch BeginText pos s caps → pos = 0%nat ∧ m = ("", s, caps).
Proof.
  cbn [rmatch]. destruct pos; [|by intros ?%elem_of_nil].
  by intros ->%list_elem_of_singleton.
Qed.

(** A pattern that starts with [^] matches at the start of the text only. *)
Lemma search_BeginText (r : regex) (pos : nat) (s : string) caps :
  search (Cat BeginText r) (S pos) s caps = None.
Proof. revert pos. induction s as [|c s IH]; intros pos; [done|]. cbn. apply IH. Qed.

Lemma search_anchored (r : regex) (s : string) caps (m : thread) :
  search (Cat BeginText r) 0 s caps = Some m →
  m ∈ rmatch (Cat BeginText r) 0 s caps.
Proof.
  destruct s as [|c s]; cbn [search].
  - destruct (rmatch _ _ _ _) as [|m' ms]; [done|].
    intros [= ->]. apply elem_of_cons; auto.
  - destruct (rmatch _ _ _ _) as [|m' ms].
    + by rewrite search_BeginText.
    + intros [= ->]. apply elem_of_cons; auto.
Qed.

Lemma elem_of_rmatch_Alt r1 r2 pos s caps (m : thread) :
  m ∈ rmatch (Alt r1 r2) pos s caps ↔
  m ∈ rmatch r1 pos s caps ∨ m ∈ rmatch r2 pos s caps.
Proof. cbn [rmatch]. apply elem_of_app. Qed.

Lemma elem_of_rmatch_Opt r pos s caps (m : thread) :
  m ∈ rmatch (Opt r) pos s caps ↔ m ∈ rmatch r pos s caps ∨ m = ("", s, caps).
Proof. cbn [rmatch]. by rewrite elem_of_app, list_elem_of_singleton. Qed.

(** *** What [regURI] matches *)

Lemma regURI_sound (s : string) (m : thread) :
  m ∈ rmatch regURI 0 s (replicate 4 "") →
  ∃ g1 g2 g3, uri_shape s g1 g2 g3 ∧ m = (s, "", [""; g1; g2; g3]).
Proof.
  unfold regURI.
  intros (m0 & m1 & [_ ->]%elem_of_rmatch_BeginText & H1 & ->)%elem_of_rmatch_Cat.
  cbn [fst snd] in *. norm_app.
  apply elem_of_rmatch_Cat in H1 as (mp & m2 & Hp & H2 & ->).
  assert (∃ g1 rest, s = g1 +:+ rest ∧ (g1 = "tcp://" ∨ g1 = "ws://" ∨ g1 = "") ∧
            mp = (g1, rest, [""; g1; ""; ""])) as (g1 & rest & -> & Hg1 & ->).
  { apply elem_of_rmatch_Opt in Hp as [Hp| ->].
    - apply elem_of_rmatch_Group in Hp as (m' & Hm' & ->).
      apply elem_of_rmatch_Alt in Hm'
        as [(rest & -> & ->)%elem_of_rmatch_Lit|(rest & -> & ->)%elem_of_rmatch_Lit];
        eexists _, rest; split; eauto.
    - exists "", s. eauto. }
  cbn [fst snd] in *.
  apply elem_of_rmatch_Cat in H2 as (mh & m3 & Hh & H3 & ->).
  apply elem_of_rmatch_Group in Hh as (mh' & Hh & ->).
  apply elem_of_rmatch_SetPlus in Hh as (g2 & rest2 & -> & Hg2 & Hall2 & ->).
  cbn [fst snd] in *.
  apply elem_of_rmatch_Cat in H3 as (mc & m4 & Hc & H4 & ->).
  apply elem_of_rmatch_Lit in Hc as (rest3 & -> & ->).
  cbn [fst snd] in *.
  apply elem_of_rmatch_Cat in H4 as (mg & me & Hg & He & ->).
  apply elem_of_rmatch_Group in Hg as (mg' & Hg & ->).
  apply elem_of_rmatch_Cat in Hg as (md & mds & Hd & Hds & ->).
  apply elem_of_rmatch_Set1 in Hd as (d & rest4 & -> & Hd & ->).
  cbn [fst snd] in *.
  apply elem_of_rmatch_SetPlus in Hds as (ds & rest5 & -> & Hds & Hallds & ->).
  cbn [fst snd] in *.
  apply elem_of_rmatch_EndText in He as [-> ->].
  norm_app. rewrite !string_app_nil_r.
  exists g1, g2, (String d ds). split; [|done].
  split; [done|]. split; [done|]. split; [done|]. split; [done|].
  by exists d, ds.
Qed.

(** [ParseURI] either fails with "invalid URI", or the text has the shape
    of [regURI] and the result is read off its three parts. *)
Lemma ParseURI_cases (uri : string) :
  ParseURI uri = inr (fmt_Errorf "rsocket: invalid URI %s" uri) ∨
  ∃ g1 g2 g3, uri_shape uri g1 g2 g3 ∧
    ParseURI uri
    = inl {| proto := if decide (g1 = "ws://") then protoWebsocket else protoTCP;
             host := g2; port := (Atoi g3).1 |}.
Proof.
  unfold ParseURI, FindStringSubmatch.
  destruct (search regURI 0 uri (replicate 4 "")) as [m|] eqn:Hm; [|by left].
  right. apply search_anchored, regURI_sound in Hm as (g1 & g2 & g3 & Hs & ->).
  exists g1, g2, g3. split; [done|]. cbn.
  destruct Hs as (_ & [->|[->| ->]] & _); done.
Qed.

(** *** Where the colons are *)

Lemma digit_not_colon (c : ascii) : digit_0_9 c = true → not_colon c = true.
Proof. by destruct c as [[] [] [] [] [] [] [] []]. Qed.

Lemma not_slash_colon_not_colon (c : ascii) :
  not_slash_colon c = true → not_colon c = true.
Proof.
  unfold not_slash_colon, not_colon.
  destruct (Ascii.eqb c ":"); [by rewrite orb_true_r|done].
Qed.

Lemma no_colon_inside (p x y : string) :
  all_in not_colon p = true → p ≠ x +:+ ":" +:+ y.
Proof.
  intros Hp ->. rewrite all_in_app in Hp. norm_app_in Hp.
  cbn in Hp. by rewrite andb_false_r in Hp.
Qed.

(** A text cut at its first colon, and cut at any colon. *)
Lemma colon_split (a b x y : string) :
  all_in not_colon a = true →
  a +:+ ":" +:+ b = x +:+ ":" +:+ y →
  (x = a ∧ y = b) ∨ (∃ x', x = a +:+ ":" +:+ x' ∧ b = x' +:+ ":" +:+ y).
Proof.
  revert x. induction a as [|c a IH]; intros x Ha; norm_app.
  - destruct x as [|c' x]; norm_app; intros [= Heq].
    + by left.
    + subst c'. right. by exists x.
  - cbn in Ha. apply andb_true_iff in Ha as [Hc Ha].
    destruct x as [|c' x]; norm_app; intros [= Heq1 Heq2].
    + by subst c.
    + subst c'. destruct (IH x Ha Heq2) as [[-> ->]|(x' & -> & ->)].
      * by left.
      * right. by exists x'.
Qed.

(** A text of the shape of [regURI] has its colon before the port, and
    the one of the scheme if there is a scheme; no other. *)
Lemma shape_split (s g1 g2 g3 x y : string) :
  uri_shape s g1 g2 g3 → s = x +:+ ":" +:+ y →
  (x = g1 +:+ g2 ∧ y = g3) ∨
  ((x = "tcp" ∨ x = "ws") ∧ ∃ rest, y = "//" +:+ rest).
Proof.
  intros (-> & Hg1 & _ & Hg2 & d & ds & -> & Hd & _ & Hds) Heq.
  assert (all_in not_colon g2 = true) as Hc2.
  { eapply all_in_impl; [apply not_slash_colon_not_colon|done]. }
  assert (all_in not_colon (String d ds) = true) as Hc3.
  { eapply (all_in_impl digit_0_9); [apply digit_not_colon|]. cbn.
    rewrite Hds, andb_true_r. revert Hd. by destruct d as [[] [] [] [] [] [] [] []]. }
  assert (∀ pre x' y',
    all_in not_colon pre = true →
    (pre +:+ g2) +:+ ":" +:+ String d ds = x' +:+ ":" +:+ y' →
    x' = pre +:+ g2 ∧ y' = String d ds) as Hlast.
  { intros pre x' y' Hpre Hxy.
    apply colon_split in Hxy as [[-> ->]|(x'' & _ & Hbad)]; [done| |].
    - by apply no_colon_inside in Hbad.
    - by rewrite all_in_app, Hpre, Hc2. }
  destruct Hg1 as [->|[->| ->]].
  - change ("tcp://" +:+ ?r) with ("tcp" +:+ ":" +:+ "//" +:+ r) in Heq.
    apply colon_split in Heq as [[-> ->]|(x' & -> & Heq)]; [|rewrite <- string_app_assoc in Heq|done].
    + right. eauto.
    + apply Hlast in Heq as [-> ->]; [|done]. by left.
  - change ("ws://" +:+ ?r) with ("ws" +:+ ":" +:+ "//" +:+ r) in Heq.
    apply colon_split in Heq as [[-> ->]|(x' & -> & Heq)]; [|rewrite <- string_app_assoc in Heq|done].
    + right. eauto.
    + apply Hlast in Heq as [-> ->]; [|done]. by left.
  - norm_app_in Heq. norm_app.
    apply (Hlast "") in Heq as [-> ->]; [|done]. by left.
Qed.

Lemma ParseURI_invalid (uri : string) :
  (∀ g1 g2 g3, ¬ uri_shape uri g1 g2 g3) →
  ParseURI uri = inr (fmt_Errorf "rsocket: invalid URI %s" uri).
Proof.
  intros Hno. destruct (ParseURI_cases uri) as [H|(g1 & g2 & g3 & Hs & _)]; [done|].
  by destruct (Hno g1 g2 g3).
Qed.

(** *** Every text of the shape is accepted *)

Lemma runs_complete (p : ascii → bool) (c rest : string) :
  c ≠ "" → all_in p c = true → (c, rest) ∈ runs p (c +:+ rest).
Proof.
  induction c as [|x c IH]; [done|]. intros _ [Hx Hc]%andb_true_iff.
  norm_app. cbn [runs]. rewrite Hx, elem_of_app.
  destruct c as [|y c]; [right; by apply list_elem_of_singleton|].
  left. apply list_elem_of_fmap. exists (String y c, rest). split; [done|].
  by apply IH.
Qed.

Lemma shape_unique (s g1 g2 g3 h1 h2 h3 : string) :
  uri_shape s g1 g2 g3 → uri_shape s h1 h2 h3 → g1 = h1 ∧ g2 = h2 ∧ g3 = h3.
Proof.
  intros Hg Hh.
  pose proof Hh as (Hs & Hh1 & _ & Hh2 & d & ds & -> & Hd & _ & _).
  rewrite <- string_app_assoc in Hs.
  destruct (shape_split _ _ _ _ _ _ Hg Hs) as [[Heq <-]|[_ [rest [= -> _]]]];
    [|done].
  destruct Hg as (_ & Hg1 & _ & Hg2 & _).
  assert (g1 = h1) as <-; [|by apply (inj (String.app g1)) in Heq].
  destruct Hg1 as [->|[->| ->]], Hh1 as [->|[->| ->]]; try done;
    norm_app_in Heq; try discriminate Heq; subst; discriminate.
Qed.

Lemma regURI_complete (s g1 g2 g3 : string) :
  uri_shape s g1 g2 g3 → ∃ m, m ∈ rmatch regURI 0 s (replicate 4 "").
Proof.
  intros (-> & Hg1 & Hne2 & Hg2 & d & ds & -> & Hd & Hnes & Hds).
  eexists. unfold regURI. apply elem_of_rmatch_Cat.
  exists ("", g1 +:+ g2 +:+ ":" +:+ String d ds, replicate 4 "").
  eexists. split; [by apply list_elem_of_singleton|]. split; [|done].
  cbn [fst snd]. apply elem_of_rmatch_Cat.
  exists (g1, g2 +:+ ":" +:+ String d ds,
          if decide (g1 = "") then replicate 4 "" else <[1%nat:=g1]> (replicate 4 "")).
  eexists. split; [|split; [|done]].
  { apply elem_of_rmatch_Opt. destruct Hg1 as [->|[->| ->]]; [left|left|by right].
    - apply elem_of_rmatch_Group. eexists ("tcp://", _, _). split; [|done].
      apply elem_of_rmatch_Alt. left. apply elem_of_rmatch_Lit. eauto.
    - apply elem_of_rmatch_Group. eexists ("ws://", _, _). split; [|done].
      apply elem_of_rmatch_Alt. right. apply elem_of_rmatch_Lit. eauto. }
  cbn [fst snd]. apply elem_of_rmatch_Cat.
  eexists (g2, ":" +:+ String d ds, _). eexists. split; [|split; [|done]].
  { apply elem_of_rmatch_Group. eexists (g2, _, _). split; [|done].
    cbn [rmatch]. apply list_elem_of_fmap. eexists (g2, _). split; [done|].
    by apply runs_complete. }
  cbn [fst snd]. apply elem_of_rmatch_Cat.
  eexists (":", String d ds, _). eexists. split; [|split; [|done]].
  { apply elem_of_rmatch_Lit. eauto. }
  cbn [fst snd]. apply elem_of_rmatch_Cat.
  eexists (String d ds, "", _). eexists. split; [|split; [|done]].
  { apply elem_of_rmatch_Group. eexists (String d ds, "", _). split; [|done].
    apply elem_of_rmatch_Cat. eexists (String d "", ds, _).
    eexists (ds, "", _). split; [|split; [|done]].
    - cbn [rmatch]. rewrite Hd. by apply list_elem_of_singleton.
    - cbn [fst snd rmatch]. apply list_elem_of_fmap. eexists (ds, ""). split; [done|].
      rewrite <- (string_app_nil_r ds) at 2. by apply runs_complete. }
  cbn [fst snd rmatch]. by apply list_elem_of_singleton.
Qed.

(** [ParseURI] accepts exactly the texts of the shape of [regURI]: the
    scheme picks the protocol, tcp when there is none; the host is the
    second part; the port is the value of the third. *)
Lemma ParseURI_accepts (uri g1 g2 g3 : string) :
  uri_shape uri g1 g2 g3 →
  ParseURI uri
  = inl {| proto := if decide (g1 = "ws://") then protoWebsocket else protoTCP;
           host := g2; port := (Atoi g3).1 |}.
Proof.
  intros Hs. destruct (regURI_complete _ _ _ _ Hs) as [m Hm].
  unfold ParseURI, FindStringSubmatch.
  destruct (search regURI 0 uri (replicate 4 "")) as [m'|] eqn:Hm'.
  - apply search_anchored, regURI_sound in Hm' as (h1 & h2 & h3 & Hh & ->).
    destruct (shape_unique _ _ _ _ _ _ _ Hs Hh) as (<- & <- & <-). cbn.
    destruct Hs as (_ & [->|[->| ->]] & _); done.
  - exfalso. revert Hm'. unfold regURI in *.
    destruct uri as [|c uri]; cbn [search];
      destruct (rmatch _ _ _ _) as [|m0 ms]; try done;
      by apply elem_of_nil in Hm.
Qed.

(** C7. [ParseURI] accepts "tcp://host:1234", "host:1234" (the scheme
    defaults to tcp) and "ws://host:1234", with the protocol, host and port
    one expects; it rejects "host:9", and with it every text that ends in a
    colon and one more character: the port needs two digits. *)
Theorem C7_ParseURI_examples :
  ParseURI "tcp://host:1234"
  = inl {| proto := protoTCP; host := "host"; port := 1234 |} ∧
  ParseURI "host:1234"
  = inl {| proto := protoTCP; host := "host"; port := 1234 |} ∧
  ParseURI "ws://host:1234"
  = inl {| proto := protoWebsocket; host := "host"; port := 1234 |} ∧
  ParseURI "host:9" = inr (fmt_Errorf "rsocket: invalid URI %s" "host:9") ∧
  (∀ h c, ParseURI (h +:+ ":" +:+ String c "")
          = inr (fmt_Errorf "rsocket: invalid URI %s" (h +:+ ":" +:+ String c ""))).
Proof.
  split; [by vm_compute|]. split; [by vm_compute|].
  split; [by vm_compute|]. split; [by vm_compute|].
  intros h c. apply ParseURI_invalid. intros g1 g2 g3 Hs.
  pose proof Hs as (_ & _ & _ & _ & d & ds & -> & _ & Hds & _).
  destruct (shape_split _ _ _ _ h (String c "") Hs eq_refl)
    as [[_ [= _ <-]]|[_ [rest [=]]]].
  done.
Qed.

(** C9. A text with a colon followed by the digit 0 (a port with a leading
    zero, as in "host:01234") is rejected with "invalid URI", however many
    digits follow: the first digit of the port has to be 1 to 9. *)
Theorem C9_leading_zero_port_rejected :
  (∀ x rest, ParseURI (x +:+ ":0" +:+ rest)
             = inr (fmt_Errorf "rsocket: invalid URI %s" (x +:+ ":0" +:+ rest))) ∧
  ParseURI "host:01234" = inr (fmt_Errorf "rsocket: invalid URI %s" "host:01234").
Proof.
  split; [|by vm_compute].
  intros x rest. apply ParseURI_invalid. intros g1 g2 g3 Hs.
  pose proof Hs as (_ & _ & _ & _ & d & ds & -> & Hd & _ & _).
  destruct (shape_split _ _ _ _ x ("0" +:+ rest) Hs eq_refl)
    as [[_ [= <- _]]|[_ [rest' [=]]]].
  done.
Qed.

(** C2, as stated, fails: "ftp://host:1234" does not fail with
    "unsupported protocol". *)
Lemma C2_ftp_is_not_unsupported_protocol :
  ¬ ∃ proto, ParseURI "ftp://host:1234"
             = inr (fmt_Errorf "rsocket: unsupported protocol %s" proto).
Proof. intros [proto H]. vm_compute in H. discriminate H. Qed.

(** C2, amended. A text with a scheme prefix other than tcp:// and ws://
    (such as "ftp://host:1234") fails with "invalid URI", like a text that
    has not the shape at all (such as "not-a-uri"): [regURI] admits no
    other scheme, and no text makes [ParseURI] fail with "unsupported
    protocol". *)
Theorem C2_unknown_scheme_is_invalid_URI :
  (∀ scheme rest,
     scheme ≠ "tcp" → scheme ≠ "ws" →
     ParseURI (scheme +:+ "://" +:+ rest)
     = inr (fmt_Errorf "rsocket: invalid URI %s" (scheme +:+ "://" +:+ rest))) ∧
  ParseURI "ftp://host:1234"
  = inr (fmt_Errorf "rsocket: invalid URI %s" "ftp://host:1234") ∧
  ParseURI "not-a-uri" = inr (fmt_Errorf "rsocket: invalid URI %s" "not-a-uri") ∧
  (∀ uri proto,
     ParseURI uri ≠ inr (fmt_Errorf "rsocket: unsupported protocol %s" proto)).
Proof.
  split; [|split; [by vm_compute|split; [by vm_compute|]]].
  - intros scheme rest Htcp Hws. apply ParseURI_invalid. intros g1 g2 g3 Hs.
    pose proof Hs as (_ & _ & _ & _ & d & ds & -> & Hd & _ & _).
    destruct (shape_split _ _ _ _ scheme ("//" +:+ rest) Hs eq_refl)
      as [[_ [= <- _]]|[[?|?] _]]; done.
  - intros uri proto.
    destruct (ParseURI_cases uri) as [->|(g1 & g2 & g3 & _ & ->)]; congruence.
Qed.

Lemma C2_unknown_scheme_is_invalid_URI_witness :
  ParseURI ("ftp" +:+ "://" +:+ "host:1234")
  = inr (fmt_Errorf "rsocket: invalid URI %s" ("ftp" +:+ "://" +:+ "host:1234")).
Proof.
  apply (proj1 C2_unknown_scheme_is_invalid_URI "ftp" "host:1234");
    discriminate.
Defined.

(** ** More on URI resolution *)

(** *** The value of the port text and its digits *)

Lemma digit_value_Some (c : ascii) :
  digit_0_9 c = true → ∃ d, digit_value c = Some d ∧ 0 <= d <= 9.
Proof.
  intros Hc. unfold digit_value. rewrite Hc. eexists. split; [done|].
  revert Hc. by destruct c as [[] [] [] [] [] [] [] []].
Qed.

Lemma digit_1_9_value (c : ascii) :
  digit_1_9 c = true → ∃ d, digit_value c = Some d ∧ 1 <= d <= 9.
Proof.
  intros Hc. assert (digit_0_9 c = true) as H0.
  { revert Hc. by destruct c as [[] [] [] [] [] [] [] []]. }
  unfold digit_value. rewrite H0. eexists. split; [done|].
  revert Hc. by destruct c as [[] [] [] [] [] [] [] []].
Qed.

(** A run of digits has a value, no less than what was read before it. *)
Lemma decimal_digits (s : string) (acc : Z) :
  all_in digit_0_9 s = true → 0 <= acc →
  ∃ v, decimal acc s = Some v ∧ acc <= v ∧ (s ≠ "" → 10 * acc <= v).
Proof.
  revert acc. induction s as [|c s IH]; intros acc Hs Hacc.
  - exists acc. split; [done|]. split; [lia|done].
  - cbn in Hs. apply andb_true_iff in Hs as [Hc Hs].
    destruct (digit_value_Some c Hc) as (d & Hd & Hrange).
    destruct (IH (10 * acc + d) Hs) as (v & Hv & Hle & _); [lia|].
    exists v. cbn. rewrite Hd. split; [done|]. split; [lia|]. intros _. lia.
Qed.

(** The value of a run of digits is the one of the [Decimal.uint] with
    the same digits. *)
Lemma decimal_of_uint (s : string) (u : Decimal.uint) (acc : positive) :
  NilEmpty.uint_of_string s = Some u →
  decimal (Z.pos acc) s = Some (Z.pos (Pos.of_uint_acc u acc)).
Proof.
  revert u acc. induction s as [|c s IH]; intros u acc.
  { by intros [= <-]. }
  cbn [NilEmpty.uint_of_string decimal].
  destruct (NilEmpty.uint_of_string s) as [u0|]; [|done].
  intros Hu. apply uint_of_char_spec in Hu.
  repeat destruct Hu as [[-> ->]|Hu]; [..|destruct Hu as [-> ->]];
    match goal with
    | |- context [digit_value ?c] =>
        let v := eval vm_compute in (digit_value c) in
        change (digit_value c) with v
    end;
    cbn [Pos.of_uint_acc]; rewrite <- (IH u0 _ eq_refl); f_equal; lia.
Qed.

Lemma digits_uint (s : string) :
  all_in digit_0_9 s = true → ∃ u, NilEmpty.uint_of_string s = Some u.
Proof.
  induction s as [|c s IH]; [by exists Decimal.Nil|].
  cbn [all_in NilEmpty.uint_of_string]. intros [Hc Hs]%andb_true_iff.
  destruct (IH Hs) as [u ->].
  destruct c as [[] [] [] [] [] [] [] []]; try discriminate Hc; by eexists.
Qed.

(** Printing the value of a run of digits that starts with 1 to 9 gives
    the digits back. *)
Lemma format_decimal (d : ascii) (ds : string) :
  digit_1_9 d = true → all_in digit_0_9 ds = true →
  ∃ v, decimal 0 (String d ds) = Some v ∧ format_int v = String d ds.
Proof.
  intros Hd Hds. destruct (digits_uint ds Hds) as [u Hu].
  assert (∃ k u', digit_value d = Some (Z.pos k) ∧
            Pos.of_uint u' = N.pos (Pos.of_uint_acc u k) ∧
            Decimal.unorm u' = u' ∧ u' ≠ Decimal.Nil ∧
            NilEmpty.string_of_uint u' = String d ds) as
    (k & u' & Hk & Hof & Hnorm & Hnil & Hprint).
  { apply NilEmpty.sus in Hu as <-.
    destruct d as [[] [] [] [] [] [] [] []]; try discriminate Hd;
      [exists 7%positive, (Decimal.D7 u)|exists 3%positive, (Decimal.D3 u)
      |exists 5%positive, (Decimal.D5 u)|exists 9%positive, (Decimal.D9 u)
      |exists 1%positive, (Decimal.D1 u)|exists 6%positive, (Decimal.D6 u)
      |exists 2%positive, (Decimal.D2 u)|exists 4%positive, (Decimal.D4 u)
      |exists 8%positive, (Decimal.D8 u)]; done. }
  exists (Z.pos (Pos.of_uint_acc u k)). cbn [decimal]. rewrite Hk.
  split; [by apply decimal_of_uint|].
  unfold format_int. cbn [Z.to_int].
  pose proof (DecimalPos.Unsigned.to_of u') as Hto.
  rewrite Hof, Hnorm in Hto. cbn [N.to_uint] in Hto. rewrite Hto.
  cbn [NilZero.string_of_int]. unfold NilZero.string_of_uint.
  by destruct u'.
Qed.

(** *** What [ParseURI] returns *)

Lemma ParseURI_inl (uri : string) (u : URI) :
  ParseURI uri = inl u →
  ∃ g1 g2 g3, uri_shape uri g1 g2 g3 ∧
    u = {| proto := if decide (g1 = "ws://") then protoWebsocket else protoTCP;
           host := g2; port := (Atoi g3).1 |}.
Proof.
  intros Hu. destruct (ParseURI_cases uri) as [H|(g1 & g2 & g3 & Hs & H)];
    rewrite H in Hu; [done|].
  injection Hu as <-. eauto.
Qed.

Lemma Atoi_port (d : ascii) (ds : string) :
  digit_1_9 d = true → ds ≠ "" → all_in digit_0_9 ds = true →
  ∃ v, decimal 0 (String d ds) = Some v ∧ 10 <= v ∧
       (Atoi (String d ds)).1 = Z.min v maxInt.
Proof.
  intros Hd Hne Hds. destruct (digit_1_9_value d Hd) as (k & Hk & Hrange).
  destruct (decimal_digits ds k Hds) as (v & Hv & _ & Hten); [lia|].
  exists v. unfold Atoi. cbn [decimal]. rewrite Hk.
  change (10 * 0 + k) with k. rewrite Hv. cbn [fst].
  split; [done|]. split; [specialize (Hten Hne); lia|].
  destruct (Z.leb_spec v maxInt); cbn; lia.
Qed.

(** X1. [ParseURI] succeeds exactly on the texts [[scheme]host:port] with
    scheme [tcp://] or [ws://], a host of one or more characters other than
    [/] and [:], and a port of two or more digits of which the first is not
    0; the result has the protocol of the scheme (tcp when there is none),
    that host, and the number [Atoi] reads in the port. *)
Theorem ParseURI_exactly_the_shape (uri : string) (u : URI) :
  ParseURI uri = inl u ↔
  ∃ g1 g2 g3, uri_shape uri g1 g2 g3 ∧
    u = {| proto := if decide (g1 = "ws://") then protoWebsocket else protoTCP;
           host := g2; port := (Atoi g3).1 |}.
Proof.
  split; [apply ParseURI_inl|].
  intros (g1 & g2 & g3 & Hs & ->). by apply ParseURI_accepts.
Qed.

Lemma ParseURI_exactly_the_shape_witness :
  ParseURI "ws://example.org:7878"
  = inl {| proto := protoWebsocket; host := "example.org"; port := 7878 |}.
Proof.
  apply ParseURI_exactly_the_shape. exists "ws://", "example.org", "7878".
  split; [|reflexivity].
  split; [reflexivity|]. split; [auto|]. split; [discriminate|].
  split; [reflexivity|]. exists "7"%char, "878".
  split; [reflexivity|]. split; [reflexivity|]. split; [discriminate|reflexivity].
Defined.

(** X2. A URI that [ParseURI] returns has one of the two known protocols, a
    host that is not empty and has no [/] and no [:], and a port between 10
    and the largest [int]: no port below 10, and no check against 65535. *)
Theorem ParseURI_result_bounds (uri : string) (u : URI) :
  ParseURI uri = inl u →
  (proto u = protoTCP ∨ proto u = protoWebsocket) ∧
  host u ≠ "" ∧ all_in not_slash_colon (host u) = true ∧
  10 <= port u <= maxInt.
Proof.
  intros (g1 & g2 & g3 & Hs & ->)%ParseURI_inl.
  destruct Hs as (_ & _ & Hne & Hall & d & ds & -> & Hd & Hnes & Hds).
  cbn [proto host port]. split; [by destruct (decide _); auto|].
  split; [done|]. split; [done|].
  destruct (Atoi_port d ds Hd Hnes Hds) as (v & _ & Hv & ->).
  unfold maxInt. lia.
Qed.

Lemma ParseURI_result_bounds_witness :
  10 <= port {| proto := protoTCP; host := "host"; port := 70000 |} <= maxInt.
Proof.
  apply (ParseURI_result_bounds "host:70000"
           {| proto := protoTCP; host := "host"; port := 70000 |}).
  vm_compute. reflexivity.
Defined.

(** X3. The port of the result is the value of the port text, or the largest
    [int] when the value is beyond it: [ParseURI] drops the range error of
    [Atoi], so a port text of any length is accepted. *)
Theorem ParseURI_port_saturates (uri g1 g2 g3 : string) :
  uri_shape uri g1 g2 g3 →
  ∃ v u, decimal 0 g3 = Some v ∧ ParseURI uri = inl u ∧
         port u = Z.min v maxInt.
Proof.
  intros Hs. pose proof (ParseURI_accepts _ _ _ _ Hs) as Hu.
  destruct Hs as (_ & _ & _ & _ & d & ds & -> & Hd & Hnes & Hds).
  destruct (Atoi_port d ds Hd Hnes Hds) as (v & Hv & _ & Hmin).
  exists v. eexists. split; [done|]. split; [done|]. done.
Qed.

Lemma ParseURI_port_saturates_witness :
  ∃ v u, decimal 0 "99999999999999999999" = Some v ∧
         ParseURI "host:99999999999999999999" = inl u ∧
         port u = Z.min v maxInt.
Proof.
  apply (ParseURI_port_saturates "host:99999999999999999999" "" "host").
  split; [reflexivity|]. split; [auto|]. split; [discriminate|].
  split; [reflexivity|]. exists "9"%char, "9999999999999999999".
  split; [reflexivity|]. split; [reflexivity|]. split; [discriminate|reflexivity].
Defined.

(** *** Protocol names and transports *)

Lemma protocol_String_TCP : protocol_String protoTCP = inl "tcp".
Proof. reflexivity. Qed.

Lemma protocol_String_Websocket : protocol_String protoWebsocket = inl "ws".
Proof. reflexivity. Qed.

Lemma protocol_String_unknown (s : protocol) :
  s ≠ protoTCP → s ≠ protoWebsocket →
  protocol_String s
  = inr (fmt_Errorf "rsocket: unknown transport protocol %d" (format_int s)).
Proof.
  intros H1 H2. unfold protocol_String, protoMap.
  by rewrite !lookup_insert_ne, lookup_empty by done.
Qed.

(** X5. [protocol.String] returns "tcp" or "ws" on the protocol of every URI
    that [ParseURI] returns, and panics on every other protocol, the zero
    value of a [URI] included. *)
Theorem protocol_String_total_on_parsed :
  (∀ uri u, ParseURI uri = inl u →
     protocol_String (proto u) = inl "tcp" ∨
     protocol_String (proto u) = inl "ws") ∧
  (∀ s, s ≠ protoTCP → s ≠ protoWebsocket →
     protocol_String s
     = inr (fmt_Errorf "rsocket: unknown transport protocol %d" (format_int s))) ∧
  protocol_String 0
  = inr (fmt_Errorf "rsocket: unknown transport protocol %d" "0").
Proof.
  split; [|split; [apply protocol_String_unknown|done]].
  intros uri u (g1 & g2 & g3 & _ & ->)%ParseURI_inl. cbn [proto].
  destruct (decide _); auto.
Qed.

Lemma protocol_String_total_on_parsed_witness :
  protocol_String (proto {| proto := protoWebsocket; host := "h"; port := 80 |})
  = inl "tcp" ∨
  protocol_String (proto {| proto := protoWebsocket; host := "h"; port := 80 |})
  = inl "ws".
Proof.
  apply (proj1 protocol_String_total_on_parsed "ws://h:80"). vm_compute.
  reflexivity.
Defined.

Section Transports.

Context {Transport ServerTransport : Type}.
Variable newTCPClientTransport : string → Transport + error.
Variable newWebsocketClientTransport : string → Transport + error.
Variable newTCPServerTransport : string → ServerTransport.
Variable newWebsocketServerTransport : string → string → ServerTransport.
Variable defaultWebsocketPath : string.
Variable fmt_panicked : error → string.

(** X6. On a URI that [ParseURI] returns, [MakeClientTransport] always reaches
    one of the two constructors, never its own error: the TCP one with
    [host:port], the websocket one with [ws://host:port/]. *)
Theorem MakeClientTransport_of_parsed (uri : string) (u : URI) :
  ParseURI uri = inl u →
  MakeClientTransport newTCPClientTransport newWebsocketClientTransport
    fmt_panicked u
  = if decide (proto u = protoWebsocket)
    then newWebsocketClientTransport
           ("ws://" +:+ host u +:+ ":" +:+ format_int (port u) +:+ "/")
    else newTCPClientTransport (host u +:+ ":" +:+ format_int (port u)).
Proof.
  intros (g1 & g2 & g3 & _ & ->)%ParseURI_inl.
  unfold MakeClientTransport. cbn [proto host port].
  by destruct (decide (g1 = "ws://")).
Qed.

(** X7. On a URI that [ParseURI] returns, [MakeServerTransport] never fails:
    it builds the TCP listener on [host:port], or the websocket listener on
    [host:port] with the default path. *)
Theorem MakeServerTransport_of_parsed (uri : string) (u : URI) :
  ParseURI uri = inl u →
  MakeServerTransport newTCPServerTransport newWebsocketServerTransport
    defaultWebsocketPath fmt_panicked u
  = inl (if decide (proto u = protoWebsocket)
         then newWebsocketServerTransport
                (host u +:+ ":" +:+ format_int (port u)) defaultWebsocketPath
         else newTCPServerTransport (host u +:+ ":" +:+ format_int (port u))).
Proof.
  intros (g1 & g2 & g3 & _ & ->)%ParseURI_inl.
  unfold MakeServerTransport. cbn [proto host port].
  by destruct (decide (g1 = "ws://")).
Qed.

(** X8. On a URI with any other protocol, such as the zero value, both fail
    without reaching a constructor.  The error of [MakeServerTransport]
    cannot name the protocol: [String] panics on it, and the message
    carries what [fmt] prints for that panic. *)
Theorem transports_of_unknown_protocol (p : URI) :
  proto p ≠ protoTCP → proto p ≠ protoWebsocket →
  MakeClientTransport newTCPClientTransport newWebsocketClientTransport
    fmt_panicked p
  = inr (fmt_Errorf "rsocket: cannot create client transport" "") ∧
  MakeServerTransport newTCPServerTransport newWebsocketServerTransport
    defaultWebsocketPath fmt_panicked p
  = inr (fmt_Errorf "rsocket: unsupported proto %s"
           (fmt_panicked (fmt_Errorf "rsocket: unknown transport protocol %d"
                            (format_int (proto p))))).
Proof.
  intros H1 H2. unfold MakeClientTransport, MakeServerTransport, fmt_s.
  rewrite !decide_False by done.
  by rewrite protocol_String_unknown by done.
Qed.

(** X9. The address handed to the TCP constructors is the text of the URI
    without its scheme, as long as the port fits an [int]; and that address
    parses to the same host and port. *)
Theorem transport_address_round_trip (uri g1 g2 g3 : string) (v : Z) :
  uri_shape uri g1 g2 g3 → decimal 0 g3 = Some v → v <= maxInt →
  ∃ u, ParseURI uri = inl u ∧
       host u +:+ ":" +:+ format_int (port u) = g2 +:+ ":" +:+ g3 ∧
       ParseURI (host u +:+ ":" +:+ format_int (port u))
       = inl {| proto := protoTCP; host := host u; port := port u |}.
Proof.
  intros Hs Hv Hle. pose proof (ParseURI_accepts _ _ _ _ Hs) as Hu.
  eexists. split; [done|]. cbn [host port].
  pose proof Hs as (_ & _ & Hne & Hall & d & ds & -> & Hd & Hnes & Hds).
  destruct (format_decimal d ds Hd Hds) as (v' & Hv' & Hfmt).
  assert (v' = v) as -> by congruence.
  assert ((Atoi (String d ds)).1 = v) as Hport.
  { destruct (Atoi_port d ds Hd Hnes Hds) as (v'' & Hv'' & _ & ->).
    assert (v'' = v) as -> by congruence. lia. }
  rewrite Hport, Hfmt. split; [done|].
  rewrite <- Hport.
  apply (ParseURI_accepts _ "" g2 (String d ds)).
  split; [done|]. split; [auto|]. split; [done|]. split; [done|].
  by exists d, ds.
Qed.

(** X10. [URI.String] on a URI that [ParseURI] returns, for a port that fits an
    [int]: the protocol by its name and the host and port as written. *)
Theorem URI_String_of_parsed (uri g1 g2 g3 : string) (v : Z) :
  uri_shape uri g1 g2 g3 → decimal 0 g3 = Some v → v <= maxInt →
  ∃ u, ParseURI uri = inl u ∧
       URI_String fmt_panicked u
       = "URI{protocol=" +:+ (if decide (g1 = "ws://") then "ws" else "tcp")
         +:+ ", host=" +:+ g2 +:+ ", port=" +:+ g3 +:+ "}".
Proof.
  intros Hs Hv Hle. pose proof (ParseURI_accepts _ _ _ _ Hs) as Hu.
  eexists. split; [done|]. unfold URI_String, fmt_s. cbn [proto host port].
  pose proof Hs as (_ & _ & _ & _ & d & ds & -> & Hd & Hnes & Hds).
  destruct (format_decimal d ds Hd Hds) as (v' & Hv' & Hfmt).
  assert (v' = v) as -> by congruence.
  destruct (Atoi_port d ds Hd Hnes Hds) as (v'' & Hv'' & _ & ->).
  assert (v'' = v) as -> by congruence.
  rewrite Z.min_l, Hfmt by done.
  by destruct (decide (g1 = "ws://")).
Qed.

End Transports.

Lemma MakeClientTransport_of_parsed_witness :
  MakeClientTransport (λ addr, inl ("tcp " +:+ addr)) (λ url, inl ("ws " +:+ url))
    (λ _, "") {| proto := protoWebsocket; host := "h"; port := 8080 |}
  = inl "ws ws://h:8080/".
Proof.
  apply (MakeClientTransport_of_parsed
           (λ addr, inl ("tcp " +:+ addr)) (λ url, inl ("ws " +:+ url)) (λ _, "")
           "ws://h:8080" {| proto := protoWebsocket; host := "h"; port := 8080 |}).
  vm_compute. reflexivity.
Defined.

Lemma MakeServerTransport_of_parsed_witness :
  MakeServerTransport (λ addr, ("tcp", addr, "")) (λ addr path, ("ws", addr, path))
    "/" (λ _, "") {| proto := protoWebsocket; host := "h"; port := 8080 |}
  = inl ("ws", "h:8080", "/").
Proof.
  apply (MakeServerTransport_of_parsed
           (λ addr, ("tcp", addr, "")) (λ addr path, ("ws", addr, path)) "/"
           (λ _, "") "ws://h:8080"
           {| proto := protoWebsocket; host := "h"; port := 8080 |}).
  vm_compute. reflexivity.
Defined.

Lemma transports_of_unknown_protocol_witness :
  MakeClientTransport (λ addr, inl addr) (λ url, inl url) (λ _, "<panic>")
    {| proto := 0; host := ""; port := 0 |}
  = inr (fmt_Errorf "rsocket: cannot create client transport" "") ∧
  MakeServerTransport (λ addr, addr) (λ addr path, addr +:+ path) "/"
    (λ _, "<panic>") {| proto := 0; host := ""; port := 0 |}
  = inr (fmt_Errorf "rsocket: unsupported proto %s" "<panic>").
Proof.
  apply (transports_of_unknown_protocol (λ addr, inl addr) (λ url, inl url)
           (λ addr, addr) (λ addr path, addr +:+ path) "/" (λ _, "<panic>")
           {| proto := 0; host := ""; port := 0 |}); discriminate.
Defined.

Lemma transport_address_round_trip_witness :
  ∃ u, ParseURI "tcp://host:1234" = inl u ∧
       host u +:+ ":" +:+ format_int (port u) = "host" +:+ ":" +:+ "1234" ∧
       ParseURI (host u +:+ ":" +:+ format_int (port u))
       = inl {| proto := protoTCP; host := host u; port := port u |}.
Proof.
  apply (transport_address_round_trip "tcp://host:1234" "tcp://" "host" "1234" 1234).
  - split; [reflexivity|]. split; [auto|]. split; [discriminate|].
    split; [reflexivity|]. exists "1"%char, "234".
    split; [reflexivity|]. split; [reflexivity|]. split; [discriminate|reflexivity].
  - reflexivity.
  - unfold maxInt. lia.
Defined.

Lemma URI_String_of_parsed_witness :
  ∃ u, ParseURI "ws://host:1234" = inl u ∧
       URI_String (λ _, "") u = "URI{protocol=ws, host=host, port=1234}".
Proof.
  apply (URI_String_of_parsed (λ _, "") "ws://host:1234" "ws://" "host" "1234" 1234).
  - split; [reflexivity|]. split; [auto|]. split; [discriminate|].
    split; [reflexivity|]. exists "1"%char, "234".
    split; [reflexivity|]. split; [reflexivity|]. split; [discriminate|reflexivity].
  - reflexivity.
  - unfold maxInt. lia.
Defined.

(** ** More on the sockets *)

(** *** Registering handlers *)

Lemma NewAbstractSocket_snoc (opts : list rsocket.OptAbstractSocket)
    (opt : rsocket.OptAbstractSocket) :
  rsocket.NewAbstractSocket (opts ++ [opt]) = opt (rsocket.NewAbstractSocket opts).
Proof. unfold rsocket.NewAbstractSocket. by rewrite foldl_app. Qed.

(** X11. [NewAbstractSocket] without options has no handler.  With options, the
    handler of a model is the one of the last option for that model, one
    that is [nil] included, and an option leaves the handlers of the other
    models as the options before it set them. *)
Theorem NewAbstractSocket_last_option_wins :
  rsocket.NewAbstractSocket []
  = {| FF := None; MP := None; RR := None; RS := None; RC := None |} ∧
  ∀ opts, let sk0 := rsocket.NewAbstractSocket opts in
    (∀ fn, rsocket.NewAbstractSocket (opts ++ [rsocket.FireAndForget fn])
           = {| FF := fn; MP := MP sk0; RR := RR sk0; RS := RS sk0; RC := RC sk0 |}) ∧
    (∀ fn, rsocket.NewAbstractSocket (opts ++ [rsocket.MetadataPush fn])
           = {| FF := FF sk0; MP := fn; RR := RR sk0; RS := RS sk0; RC := RC sk0 |}) ∧
    (∀ fn, rsocket.NewAbstractSocket (opts ++ [rsocket.RequestResponse fn])
           = {| FF := FF sk0; MP := MP sk0; RR := fn; RS := RS sk0; RC := RC sk0 |}) ∧
    (∀ fn, rsocket.NewAbstractSocket (opts ++ [rsocket.RequestStream fn])
           = {| FF := FF sk0; MP := MP sk0; RR := RR sk0; RS := fn; RC := RC sk0 |}) ∧
    (∀ fn, rsocket.NewAbstractSocket (opts ++ [rsocket.RequestChannel fn])
           = {| FF := FF sk0; MP := MP sk0; RR := RR sk0; RS := RS sk0; RC := fn |}).
Proof.
  split; [done|]. intros opts sk0.
  repeat split; intros fn; by rewrite NewAbstractSocket_snoc.
Qed.

(** X12. A request on a socket made by [NewAbstractSocket] is answered by the
    handler of the last option for its model, with the message as given;
    when that option carries [nil], the request is unsupported again,
    whatever was registered before. *)
Theorem registered_handler_answers (opts : list rsocket.OptAbstractSocket) :
  (∀ f message,
     AbstractRSocket_.RequestResponse
       (rsocket.NewAbstractSocket (opts ++ [rsocket.RequestResponse (Some f)]))
       message = f message) ∧
  (∀ f message,
     AbstractRSocket_.RequestStream
       (rsocket.NewAbstractSocket (opts ++ [rsocket.RequestStream (Some f)]))
       message = f message) ∧
  (∀ f messages,
     AbstractRSocket_.RequestChannel
       (rsocket.NewAbstractSocket (opts ++ [rsocket.RequestChannel (Some f)]))
       messages = f messages) ∧
  (∀ f message,
     AbstractRSocket_.FireAndForget
       (rsocket.NewAbstractSocket (opts ++ [rsocket.FireAndForget (Some f)]))
       message = f message) ∧
  (∀ f message,
     AbstractRSocket_.MetadataPush
       (rsocket.NewAbstractSocket (opts ++ [rsocket.MetadataPush (Some f)]))
       message = f message) ∧
  (∀ message,
     AbstractRSocket_.RequestResponse
       (rsocket.NewAbstractSocket (opts ++ [rsocket.RequestResponse None]))
       message = ([], mono_Error errUnsupportedRequestResponse)) ∧
  (∀ message,
     AbstractRSocket_.FireAndForget
       (rsocket.NewAbstractSocket (opts ++ [rsocket.FireAndForget None]))
       message = ([Logged ERROR "%s\n" errUnsupportedFireAndForget], tt)).
Proof.
  repeat split; intros; by rewrite NewAbstractSocket_snoc.
Qed.

(** *** Requests that the lease allows *)

(** X13. When the lease check allows, each of the four gated methods hands the
    message unchanged to the duplex socket, once, and the three with a
    result return what the peer answered; the socket afterwards differs
    from the one before only by its lease.  Whether [Close] has run plays
    no part. *)
Theorem allowed_request_is_forwarded (now : Z) (p : baseSocket)
    (message : Payload) (messages : Publisher) :
  (baseSocket_.reqLease_allow now p).1 = None →
  let p' := (baseSocket_.reqLease_allow now p).2 in
  baseSocket_.FireAndForget now p message = ([DuplexFireAndForget message], p') ∧
  baseSocket_.RequestResponse now p message
  = ([DuplexRequestResponse message],
     (peer_RequestResponse (socket p) message, p')) ∧
  baseSocket_.RequestStream now p message
  = ([DuplexRequestStream message], (peer_RequestStream (socket p) message, p')) ∧
  baseSocket_.RequestChannel now p messages
  = ([DuplexRequestChannel messages],
     (peer_RequestChannel (socket p) messages, p')) ∧
  socket p' = socket p ∧ closers p' = closers p ∧ once p' = once p.
Proof.
  intros Hok p'.
  unfold baseSocket_.FireAndForget, baseSocket_.RequestResponse,
    baseSocket_.RequestStream, baseSocket_.RequestChannel.
  rewrite Hok. done.
Qed.

Lemma allowed_request_is_forwarded_witness :
  baseSocket_.RequestResponse 7
    {| socket := sample_peer; closers := []; once := true;
       reqLease := Some {| deadline := 9; remaining := 1 |} |} sample_payload
  = ([DuplexRequestResponse sample_payload],
     (mono_Just sample_payload,
      {| socket := sample_peer; closers := []; once := true;
         reqLease := Some {| deadline := 9; remaining := 0 |} |})).
Proof.
  apply (allowed_request_is_forwarded 7
           {| socket := sample_peer; closers := []; once := true;
              reqLease := Some {| deadline := 9; remaining := 1 |} |}
           sample_payload [sample_payload]).
  reflexivity.
Defined.

(** *** Sequences of requests *)

Lemma dispatch_no_lease (now : Z) (p : baseSocket) (r : request) :
  reqLease p = None → dispatch now p r = ([forwarded r], p).
Proof.
  intros Hp. destruct p as [d cs o l]. cbn in Hp. subst l.
  by destruct r.
Qed.

(** X14. On a socket that never got a lease, a new one in particular, every
    request of every model reaches the duplex socket, in the order made,
    whenever it is made, and the socket stays as it is.  (The lease check
    on a [nil] lease is the one of the design document.) *)
Theorem no_lease_forwards_everything (p : baseSocket) (rs : list (Z * request)) :
  reqLease p = None →
  dispatch_all p rs = (forwarded <$> rs.*2, p).
Proof.
  intros Hp. induction rs as [|[now r] rs IH]; [done|].
  cbn [dispatch_all]. unfold io_bind.
  rewrite dispatch_no_lease by done. cbn [fst snd]. by rewrite IH.
Qed.

Lemma no_lease_forwards_everything_witness :
  dispatch_all (newBaseSocket sample_peer)
    [(3, ReqRequestResponse sample_payload); (1, ReqFireAndForget sample_payload)]
  = ([DuplexRequestResponse sample_payload; DuplexFireAndForget sample_payload],
     newBaseSocket sample_peer).
Proof.
  apply (no_lease_forwards_everything (newBaseSocket sample_peer)
           [(3, ReqRequestResponse sample_payload);
            (1, ReqFireAndForget sample_payload)]).
  reflexivity.
Defined.

Lemma dispatch_all_app_events (p : baseSocket) (now : Z) (r : request)
    (rs : list (Z * request)) :
  (dispatch_all p ((now, r) :: rs)).1
  = (dispatch now p r).1 ++ (dispatch_all (dispatch now p r).2 rs).1.
Proof. reflexivity. Qed.

Lemma RequestResponse_allowed now p message :
  (baseSocket_.reqLease_allow now p).1 = None →
  baseSocket_.RequestResponse now p message
  = ([DuplexRequestResponse message],
     (peer_RequestResponse (socket p) message, (baseSocket_.reqLease_allow now p).2)).
Proof. unfold baseSocket_.RequestResponse. by intros ->. Qed.

Lemma RequestStream_allowed now p message :
  (baseSocket_.reqLease_allow now p).1 = None →
  baseSocket_.RequestStream now p message
  = ([DuplexRequestStream message],
     (peer_RequestStream (socket p) message, (baseSocket_.reqLease_allow now p).2)).
Proof. unfold baseSocket_.RequestStream. by intros ->. Qed.

Lemma RequestChannel_allowed now p messages :
  (baseSocket_.reqLease_allow now p).1 = None →
  baseSocket_.RequestChannel now p messages
  = ([DuplexRequestChannel messages],
     (peer_RequestChannel (socket p) messages, (baseSocket_.reqLease_allow now p).2)).
Proof. unfold baseSocket_.RequestChannel. by intros ->. Qed.

(** The lease check under a window with requests left or none: what is
    left afterwards is not negative, and one less when the check allows. *)
Lemma reqLease_allow_window (now : Z) (d : DuplexRSocket) cs o (w : leaser) :
  0 <= remaining w →
  let p := {| socket := d; closers := cs; once := o; reqLease := Some w |} in
  ∃ w', (baseSocket_.reqLease_allow now p).2
        = {| socket := d; closers := cs; once := o; reqLease := Some w' |} ∧
        0 <= remaining w' <= remaining w ∧
        ((baseSocket_.reqLease_allow now p).1 = None →
         remaining w' = remaining w - 1).
Proof.
  intros Hw p. subst p. unfold baseSocket_.reqLease_allow, allow.
  cbn [reqLease socket closers once].
  destruct (Z.leb_spec (deadline w) now).
  { exists w. cbn. split; [done|]. split; [lia|done]. }
  destruct (Z.eqb_spec (remaining w) 0).
  { exists w. cbn. split; [done|]. split; [lia|done]. }
  eexists. cbn. split; [done|]. cbn. split; [lia|done].
Qed.

Ltac count_answered :=
  cbn -[Z.of_nat]; repeat (rewrite decide_False by done);
  repeat (rewrite decide_True by done); cbn; lia.

(** One request under such a window: at most one request with a result
    goes out, and it is paid for. *)
Lemma dispatch_quota (now : Z) (d : DuplexRSocket) cs o (w : leaser) (r : request) :
  0 <= remaining w →
  let p := {| socket := d; closers := cs; once := o; reqLease := Some w |} in
  ∃ w', (dispatch now p r).2
        = {| socket := d; closers := cs; once := o; reqLease := Some w' |} ∧
        0 <= remaining w' ∧
        Z.of_nat (length (filter (λ e, is_answered e = true) (dispatch now p r).1))
        + remaining w' <= remaining w.
Proof.
  intros Hw p.
  destruct (reqLease_allow_window now d cs o w Hw) as (w' & Hp' & Hrange & Hdec).
  fold p in Hp', Hdec.
  destruct r as [m|m|m|m|ms]; cbn [dispatch].
  - exists w'. destruct (baseSocket_.reqLease_allow now p).1 as [err|] eqn:Herr.
    + rewrite (FireAndForget_denied _ _ _ err), Hp' by done. split; [done|]. count_answered.
    + rewrite FireAndForget_allowed, Hp' by done. split; [done|]. count_answered.
  - exists w. split; [done|]. count_answered.
  - exists w'. destruct (baseSocket_.reqLease_allow now p).1 as [err|] eqn:Herr.
    + rewrite (RequestResponse_denied _ _ _ err), Hp' by done. split; [done|]. count_answered.
    + rewrite RequestResponse_allowed, Hp' by done.
      split; [done|]. specialize (Hdec eq_refl). count_answered.
  - exists w'. destruct (baseSocket_.reqLease_allow now p).1 as [err|] eqn:Herr.
    + rewrite (RequestStream_denied _ _ _ err), Hp' by done. split; [done|]. count_answered.
    + rewrite RequestStream_allowed, Hp' by done.
      split; [done|]. specialize (Hdec eq_refl). count_answered.
  - exists w'. destruct (baseSocket_.reqLease_allow now p).1 as [err|] eqn:Herr.
    + rewrite (RequestChannel_denied _ _ _ err), Hp' by done. split; [done|]. count_answered.
    + rewrite RequestChannel_allowed, Hp' by done.
      split; [done|]. specialize (Hdec eq_refl). count_answered.
Qed.

(** X15. After [refreshLease] with a quota [n] that is not negative, whatever
    requests follow and whenever, at most [n] requests with a result
    ([RequestResponse], [RequestStream], [RequestChannel]) reach the duplex
    socket.  (The lease check is the one of the design document.) *)
Theorem lease_bounds_answered_requests (p : baseSocket) (t0 ttl n : Z)
    (rs : list (Z * request)) :
  0 <= n →
  Z.of_nat (length (filter (λ e, is_answered e = true)
              (dispatch_all (baseSocket_.refreshLease t0 ttl n p) rs).1)) <= n.
Proof.
  intros Hn.
  assert (∃ w, baseSocket_.refreshLease t0 ttl n p
               = {| socket := socket p; closers := closers p; once := once p;
                    reqLease := Some w |} ∧ remaining w = n) as (w & -> & <-).
  { unfold baseSocket_.refreshLease. destruct (reqLease p); by eexists. }
  generalize (socket p) (closers p) (once p). intros d cs o. clear p.
  revert w Hn. induction rs as [|[now r] rs IH]; intros w Hw.
  { cbn. lia. }
  rewrite dispatch_all_app_events, filter_app, length_app.
  destruct (dispatch_quota now d cs o w r Hw) as (w' & -> & Hw' & Hle).
  specialize (IH w' Hw'). lia.
Qed.

Lemma lease_bounds_answered_requests_witness :
  Z.of_nat (length (filter (λ e, is_answered e = true)
    (dispatch_all (baseSocket_.refreshLease 0 10 1 (newBaseSocket sample_peer))
       [(1, ReqRequestStream sample_payload);
        (2, ReqRequestResponse sample_payload);
        (3, ReqRequestChannel [sample_payload])]).1)) <= 1.
Proof.
  apply (lease_bounds_answered_requests (newBaseSocket sample_peer) 0 10 1).
  lia.
Defined.

(** *** Who gets the result of [Close] *)

Lemma result_invariant_start (p : baseSocket) (K : nat) :
  once p = false → result_invariant p (start p K).
Proof.
  intros Hp. split; cbn; [|by rewrite Hp].
  by intros _ i c [-> _]%lookup_replicate.
Qed.

Lemma result_invariant_step (p : baseSocket) (σ : run) (i : nat) :
  invariant p σ → result_invariant p σ → result_invariant p (step p σ i).
Proof.
  intros [Hu Hm Hl _ _] [Hopen Hset]. unfold step.
  destruct (callers σ !! i) as [c|] eqn:Hi; [|done].
  pose proof (Hl i c Hi) as Hli.
  destruct c as [ | | |[|e todo] err|err|err|err].
  - (* Enter *)
    split; cbn [callers mutex done events].
    + intros Hdn j c Hj. rewrite Hdn in Hj. split_lookups; [done|].
      by apply (Hopen Hdn j).
    + intros Hdn. rewrite Hdn. destruct (Hset Hdn) as (w & Hw & Hother).
      assert (w ≠ i) by (intros ->; destruct Hw; by same_caller).
      exists w. split; [by rewrite list_lookup_insert_ne|].
      intros j c Hjw Hj. split_lookups; [done|]. by apply (Hother j).
  - (* Lock *)
    destruct (mutex σ); [done|]. split; cbn [callers mutex done events].
    + intros Hdn j c Hj. split_lookups; [done|]. by apply (Hopen Hdn j).
    + intros Hdn. destruct (Hset Hdn) as (w & Hw & Hother).
      assert (w ≠ i) by (intros ->; destruct Hw; by same_caller).
      exists w. split; [by rewrite list_lookup_insert_ne|].
      intros j c Hjw Hj. split_lookups; [done|]. by apply (Hother j).
  - (* Check *)
    split; cbn [callers mutex done events].
    + intros Hdn j c Hj. rewrite Hdn in Hj. split_lookups; [done|].
      by apply (Hopen Hdn j).
    + intros Hdn. rewrite Hdn. destruct (Hset Hdn) as (w & Hw & Hother).
      assert (w ≠ i) by (intros ->; destruct Hw; by same_caller).
      exists w. split; [by rewrite list_lookup_insert_ne|].
      intros j c Hjw Hj. split_lookups; [done|]. by apply (Hother j).
  - (* Running, nothing left *)
    destruct Hli as (Hdn & _ & ->). split; cbn [callers mutex done events].
    + intros _ j c Hj. split_lookups; [done|]. by apply (Hopen Hdn j).
    + congruence.
  - (* Running, one event *)
    destruct Hli as (Hdn & _ & ->). split; cbn [callers mutex done events].
    + intros _ j c Hj. split_lookups; [done|]. by apply (Hopen Hdn j).
    + congruence.
  - (* Store *)
    destruct Hli as (Hdn & _). pose proof (Hopen Hdn i _ Hi) as Herr.
    cbn in Herr. subst err. split; cbn [callers mutex done events]; [done|].
    intros _. exists i. split; [left; by eapply lookup_insert_same|].
    intros j c Hji Hj. rewrite list_lookup_insert_ne in Hj by done.
    pose proof (Hopen Hdn j c Hj) as Hc.
    destruct c; try done;
      (assert (j = i) by (by eapply (Hu j i _ (Store _)))); done.
  - (* Unlock *)
    split; cbn [callers mutex done events]; [congruence|].
    intros _. destruct (Hset Hli) as (w & Hw & Hother).
    destruct (decide (w = i)) as [->|Hwi].
    + exists i. split.
      * right. destruct Hw as [Hw|Hw]; same_caller; by eapply lookup_insert_same.
      * intros j c Hji Hj. rewrite list_lookup_insert_ne in Hj by done.
        by apply (Hother j).
    + exists w. split; [by rewrite list_lookup_insert_ne|].
      intros j c Hjw Hj. split_lookups; [|by apply (Hother j)].
      pose proof (Hother i _ (not_eq_sym Hwi) Hi) as Hc. by destruct err.
  - (* Return *)
    done.
Qed.

Lemma result_invariant_exec (p : baseSocket) (schedule : list nat) (σ : run) :
  invariant p σ → result_invariant p σ →
  result_invariant p (exec p σ schedule).
Proof.
  revert σ. induction schedule as [|i schedule IH]; intros σ Hinv Hres; [done|].
  rewrite exec_cons. apply IH; [by apply invariant_step|].
  by apply result_invariant_step.
Qed.

(** X16. Of any number of concurrent callers of [Close] on a socket whose
    [Close] has not run, under any interleaving: once all have returned,
    one of them has returned what closing the duplex socket returned, and
    every other one has returned [nil]. *)
Theorem Close_result_to_one_caller (p : baseSocket) (K : nat) (schedule : list nat) :
  once p = false → K ≠ 0%nat →
  finished (exec p (start p K) schedule) = true →
  ∃ w, callers (exec p (start p K) schedule) !! w
       = Some (Return (peer_Close (socket p))) ∧
       ∀ j, j ≠ w → (j < K)%nat →
            callers (exec p (start p K) schedule) !! j = Some (Return None).
Proof.
  intros Hp HK Hfin.
  pose proof (invariant_exec p schedule _ (invariant_start p K Hp)) as Hinv.
  pose proof (result_invariant_exec p schedule _ (invariant_start p K Hp)
                (result_invariant_start p K Hp)) as [_ Hset].
  assert (length (callers (exec p (start p K) schedule)) = K) as Hlen.
  { rewrite length_callers_exec. cbn. by rewrite length_replicate. }
  assert (done (exec p (start p K) schedule) = true) as Hdn.
  { destruct (lookup_lt_is_Some_2 (callers (exec p (start p K) schedule)) 0)
      as [c Hc]; [lia|].
    pose proof (finished_lookup _ _ _ Hfin Hc) as Hret.
    pose proof (inv_local p _ Hinv _ _ Hc) as Hloc. by destruct c. }
  destruct (Hset Hdn) as (w & Hw & Hother).
  rewrite close_once_spec in Hw. cbn [snd] in Hw.
  exists w. split.
  - destruct Hw as [Hw|Hw]; [|done].
    by pose proof (finished_lookup _ _ _ Hfin Hw).
  - intros j Hjw Hj.
    destruct (lookup_lt_is_Some_2 (callers (exec p (start p K) schedule)) j)
      as [c Hc]; [lia|].
    pose proof (finished_lookup _ _ _ Hfin Hc) as Hret.
    pose proof (Hother j c Hjw Hc) as Hcase.
    destruct c as [ | | | | | |[err|]]; done.
Qed.

Lemma Close_result_to_one_caller_witness :
  let p := {| socket := sample_peer;
              closers := Some <$> [quiet_closer; faulty_closer; quiet_closer];
              once := false; reqLease := None |} in
  let schedule := [0; 1; 1; 1; 0; 2; 1; 1; 0; 1; 2; 1; 1; 1; 1; 1; 0; 0; 2; 0; 2; 2; 2]%nat in
  ∃ w, callers (exec p (start p 3) schedule) !! w
       = Some (Return (Some (errors_New "broken pipe"))) ∧
       ∀ j, j ≠ w → (j < 3)%nat →
            callers (exec p (start p 3) schedule) !! j = Some (Return None).
Proof.
  intros p schedule.
  apply (Close_result_to_one_caller p 3 schedule); [reflexivity|lia|reflexivity].
Defined.

(** *** Handlers and a socket that is closed *)

Lemma once_OnClose_fold (fns : list (option closer)) (p : baseSocket) :
  once (foldl baseSocket_.OnClose p fns) = once p.
Proof.
  revert p. induction fns as [|[f|] fns IH]; intros p; cbn; [done| |];
    by rewrite IH.
Qed.

(** X17. A handler registered after [Close] has run is never called: however
    many are registered then, a later [Close] does nothing and returns
    [nil].  [OnClose] itself never fails, and keeps the handlers that were
    there. *)
Theorem OnClose_after_Close_is_never_called (p : baseSocket)
    (fns : list (option closer)) :
  once p = false →
  let closed := (baseSocket_.Close p).2.2 in
  let late := foldl baseSocket_.OnClose closed fns in
  baseSocket_.Close late = ([], (None, late)) ∧
  closers late = closers p ++ filter is_Some fns.
Proof.
  intros Hp closed late. split.
  - apply Close_again. subst late closed. rewrite once_OnClose_fold.
    by rewrite Close_first.
  - subst late closed. rewrite closers_OnClose_fold, Close_first by done.
    cbn [snd closers]. f_equal.
    induction fns as [|[f|] fns IH]; [done| |].
    + rewrite filter_cons_True by eauto. cbn. by f_equal.
    + rewrite filter_cons_False; [done|]. by intros [? [=]].
Qed.

Lemma OnClose_after_Close_is_never_called_witness :
  baseSocket_.Close
    (baseSocket_.OnClose (baseSocket_.Close (newBaseSocket sample_peer)).2.2
       (Some faulty_closer))
  = ([], (None,
          baseSocket_.OnClose (baseSocket_.Close (newBaseSocket sample_peer)).2.2
            (Some faulty_closer))).
Proof.
  apply (OnClose_after_Close_is_never_called (newBaseSocket sample_peer)
           [Some faulty_closer]).
  reflexivity.
Defined.

(** X18. The whole of the first [Close], for any handler list, one with [nil]
    funcs in it included: the duplex socket is closed first; then the slots
    are visited from the last to the first, none out of range; a handler is
    called with the result of the close, and what it panics with is logged;
    a [nil] func is not called, its fault is recovered and logged like a
    handler's, and the slots before it are still visited. *)
Theorem Close_visits_every_slot (p : baseSocket) :
  once p = false →
  (baseSocket_.Close p).1
  = DuplexClose ::
    concat (reverse (imap (λ slot fn,
      match fn with
      | Some f =>
          CloserCalled slot (peer_Close (socket p)) ::
          match f (peer_Close (socket p)) with
          | Returned => []
          | Panicked v => [Logged ERROR "handle socket closer failed: %s\n" v]
          end
      | None =>
          [NilFuncCalled slot;
           Logged ERROR "handle socket closer failed: %s\n"
             (runtime_Error "invalid memory address or nil pointer dereference")]
      end) (closers p))) ∧
  (baseSocket_.Close p).2.1 = peer_Close (socket p).
Proof.
  intros Hp. rewrite Close_first by done. cbn [fst snd]. split; [|done].
  rewrite close_once_spec. cbn [fst]. do 3 f_equal.
  apply imap_ext. intros slot fn _. unfold baseSocket_.call_closer.
  destruct fn as [f|]; cbn; [|done]. by destruct (f _).
Qed.

Lemma Close_visits_every_slot_witness :
  (baseSocket_.Close
     {| socket := sample_peer; closers := [Some quiet_closer; None];
        once := false; reqLease := None |}).1
  = [DuplexClose; NilFuncCalled 1;
     Logged ERROR "handle socket closer failed: %s\n"
       (runtime_Error "invalid memory address or nil pointer dereference");
     CloserCalled 0 (Some (errors_New "broken pipe"))].
Proof.
  apply (Close_visits_every_slot
           {| socket := sample_peer; closers := [Some quiet_closer; None];
              once := false; reqLease := None |}).
  reflexivity.
Defined.

(** *** Hosts with a colon *)

Lemma shape_port_no_colon (s g1 g2 g3 : string) :
  uri_shape s g1 g2 g3 → all_in not_colon g3 = true.
Proof.
  intros (_ & _ & _ & _ & d & ds & -> & Hd & _ & Hds).
  eapply (all_in_impl digit_0_9); [apply digit_not_colon|]. cbn.
  rewrite Hds, andb_true_r. revert Hd. by destruct d as [[] [] [] [] [] [] [] []].
Qed.

(** X4. [ParseURI] rejects every text with two colons of which the first does
    not end the scheme [tcp] or [ws], and every text with three colons or
    more: a host cannot have a colon in it, so no IPv6 literal is accepted,
    with or without a scheme. *)
Theorem ParseURI_rejects_colon_in_host :
  (∀ x y z, x ≠ "tcp" → x ≠ "ws" →
     ParseURI (x +:+ ":" +:+ y +:+ ":" +:+ z)
     = inr (fmt_Errorf "rsocket: invalid URI %s" (x +:+ ":" +:+ y +:+ ":" +:+ z))) ∧
  (∀ a b c d,
     ParseURI (a +:+ ":" +:+ b +:+ ":" +:+ c +:+ ":" +:+ d)
     = inr (fmt_Errorf "rsocket: invalid URI %s"
              (a +:+ ":" +:+ b +:+ ":" +:+ c +:+ ":" +:+ d))).
Proof.
  split.
  - intros x y z Htcp Hws. apply ParseURI_invalid. intros g1 g2 g3 Hs.
    pose proof (shape_port_no_colon _ _ _ _ Hs) as Hc3.
    destruct (shape_split _ _ _ _ x (y +:+ ":" +:+ z) Hs eq_refl)
      as [[_ Hy]|[[?|?] _]]; [|done..].
    symmetry in Hy. by apply no_colon_inside in Hy.
  - intros a b c d. apply ParseURI_invalid. intros g1 g2 g3 Hs.
    pose proof (shape_port_no_colon _ _ _ _ Hs) as Hc3.
    assert (a +:+ ":" +:+ b +:+ ":" +:+ c +:+ ":" +:+ d
            = (a +:+ ":" +:+ b) +:+ ":" +:+ c +:+ ":" +:+ d) as Heq.
    { by rewrite !string_app_assoc. }
    destruct (shape_split _ _ _ _ _ _ Hs Heq) as [[_ Hy]|[[Hx|Hx] _]].
    + symmetry in Hy. by apply no_colon_inside in Hy.
    + symmetry in Hx. by apply no_colon_inside in Hx.
    + symmetry in Hx. by apply no_colon_inside in Hx.
Qed.

Lemma ParseURI_rejects_colon_in_host_witness :
  ParseURI ("[" +:+ ":" +:+ "" +:+ ":" +:+ "1]:8080")
  = inr (fmt_Errorf "rsocket: invalid URI %s" ("[" +:+ ":" +:+ "" +:+ ":" +:+ "1]:8080")).
Proof.
  apply (proj1 ParseURI_rejects_colon_in_host "[" "" "1]:8080"); discriminate.
Defined.
